(** * sched.c: the NPP / RR scheduling simulator, embedded and verified

    The development follows the layout of [sched.c]:
    - machine integers ([int], 32 bits, two's complement);
    - the structs [ProcessNode] and [List];
    - the queue methods [init_list], [enqueue], [dequeue];
    - [swapWithNext] and [insSortPriority];
    - the scheduling methods [arrivalChecker], [npp], [rr], [processQueue];
    - the part of [main] that reads the command line, imports the
      processes and prints the result queue.

    A [List] of the program is a doubly linked chain of nodes between
    [head] and [tail] together with a separately maintained [count].  The
    chain is represented by the sequence of its node payloads, head first;
    [next]/[prev] are the successor and predecessor positions, a pointer is
    [NULL] when the position does not exist.  [count] is kept as its own
    field, because the program updates and tests it independently of the
    chain.  No node is ever linked into two lists at once: every [enqueue]
    in the program is handed a node that was just created or dequeued.
    [malloc] is taken to succeed. *)

From stdpp Require Import base tactics option list numbers strings sorting.
From Stdlib Require Import ZArith Lia.

Local Open Scope Z_scope.

(* ------------------------------------------------------------------ *)
(** ** Machine integers *)
(* ------------------------------------------------------------------ *)

Definition INT_MIN : Z := -2147483648.
Definition INT_MAX : Z := 2147483647.

(** The value an [int] holds after an arithmetic result [z] is stored in
    it.  C leaves the overflow of an [int] undefined; the result taken
    here is the one of two's complement hardware, where the value wraps
    around. *)
Definition wrap (z : Z) : Z := (z + 2147483648) mod 4294967296 - 2147483648.

Definition int_add (a b : Z) : Z := wrap (a + b).
Definition int_sub (a b : Z) : Z := wrap (a - b).

Definition is_int (z : Z) : Prop := INT_MIN <= z <= INT_MAX.

(* ------------------------------------------------------------------ *)
(** ** Results of running a piece of the program *)
(* ------------------------------------------------------------------ *)

(** [NullDeref]: the program dereferences a [NULL] pointer.
    [OutOfFuel]: the iteration bound handed to a [while] loop of the
    model was used up before the loop condition became false. *)
Inductive res (A : Type) : Type :=
| Ret (a : A)
| NullDeref
| OutOfFuel.
Arguments Ret {A} a.
Arguments NullDeref {A}.
Arguments OutOfFuel {A}.

#[global] Instance res_ret : MRet res := @Ret.
#[global] Instance res_bind : MBind res := λ A B f m,
  match m with
  | Ret a => f a
  | NullDeref => NullDeref
  | OutOfFuel => OutOfFuel
  end.

(** Reading through a pointer. *)
Definition deref {A} (p : option A) : res A :=
  match p with
  | Some a => Ret a
  | None => NullDeref
  end.

(* ------------------------------------------------------------------ *)
(** ** Structs *)
(* ------------------------------------------------------------------ *)

Record ProcessNode : Type := mkProcess {
  pid : Z;
  arrival : Z;
  burst : Z;
  finish : Z;
  waiting : Z;
  leftover : Z;
  priority : Z
}.

Record List : Type := mkList {
  nodes : list ProcessNode;
  count : Z
}.

Definition set_leftover (p : ProcessNode) (v : Z) : ProcessNode :=
  mkProcess (pid p) (arrival p) (burst p) (finish p) (waiting p) v (priority p).
Definition set_waiting (p : ProcessNode) (v : Z) : ProcessNode :=
  mkProcess (pid p) (arrival p) (burst p) (finish p) v (leftover p) (priority p).
Definition set_finish (p : ProcessNode) (v : Z) : ProcessNode :=
  mkProcess (pid p) (arrival p) (burst p) v (waiting p) (leftover p) (priority p).

(* ------------------------------------------------------------------ *)
(** ** Process methods *)
(* ------------------------------------------------------------------ *)

Definition init_process (pid arrivalTime burstTime priority : Z) : ProcessNode :=
  mkProcess pid arrivalTime burstTime 0 0 0 priority.

(* ------------------------------------------------------------------ *)
(** ** List / queuing methods *)
(* ------------------------------------------------------------------ *)

Definition init_list : List := mkList [] 0.

(** [enqueue(list, node)] for a non-[NULL] [node]. *)
Definition enqueue (list : List) (node : ProcessNode) : List :=
  mkList (nodes list ++ [node]) (int_add (count list) 1).

(** [dequeue(queue)]: the returned pointer and the queue afterwards.
    [head == tail] holds for the empty chain (both [NULL]) and for the
    chain of one node. *)
Definition dequeue (queue : List) : option ProcessNode * List :=
  match nodes queue with
  | [] => (None, mkList [] (int_sub (count queue) 1))
  | [final] => (Some final, mkList [] (int_sub (count queue) 1))
  | first :: rest => (Some first, mkList rest (int_sub (count queue) 1))
  end.

(** [swapWithNext(i)]: the payloads of node [i] and of [i->next] are
    exchanged, the links stay. *)
Definition swapWithNext (l : list ProcessNode) (i : nat) : res (list ProcessNode) :=
  a ← deref (l !! i);
  b ← deref (l !! S i);
  Ret (<[S i := a]> (<[i := b]> l)).

(** The inner [while (i != NULL && i->priority > i->next->priority)] of
    [insSortPriority], entered with [i] at position [i]. *)
Fixpoint sift (l : list ProcessNode) (i : nat) : res (list ProcessNode) :=
  a ← deref (l !! i);
  b ← deref (l !! S i);
  if priority a >? priority b then
    l' ← swapWithNext l i;
    match i with
    | O => Ret l'                      (* i = i->prev is NULL *)
    | S i' => sift l' i'
    end
  else Ret l.

(** The [do ... while (ptr->next != NULL)] loop of [insSortPriority]. *)
Fixpoint insSort_loop (fuel : nat) (l : list ProcessNode) (ptr i : nat)
  : res (list ProcessNode) :=
  match fuel with
  | O => OutOfFuel
  | S fuel =>
    let ptr := S ptr in                                  (* ptr = ptr->next *)
    p ← deref (l !! ptr);
    n ← deref (l !! i);
    '(l, i) ← (if priority p >=? priority n
               then Ret (l, S i)                         (* i = i->next *)
               else l' ← sift l i; Ret (l', ptr));        (* i = ptr *)
    match l !! S ptr with
    | Some _ => insSort_loop fuel l ptr i
    | None => Ret l
    end
  end.

(** Each round of the loop moves [ptr] one node ahead, so the loop has
    fewer rounds than the chain has nodes. *)
Definition insSortPriority (list : List) : res List :=
  if count list =? 1 then Ret list
  else l ← insSort_loop (S (length (nodes list))) (nodes list) 0 0;
       Ret (mkList l (count list)).

(* ------------------------------------------------------------------ *)
(** ** Scheduling methods *)
(* ------------------------------------------------------------------ *)

(** The body of the [for] loop of [arrivalChecker], run [n] times. *)
Fixpoint arrivalChecker_loop (n : nat) (ReadyQueue JobQueue : List) (CLOCK : Z)
  : res (List * List) :=
  match n with
  | O => Ret (ReadyQueue, JobQueue)
  | S n =>
    let '(ptr, JobQueue) := dequeue JobQueue in
    arrivalChecker ← deref ptr;
    if arrival arrivalChecker =? CLOCK
    then arrivalChecker_loop n (enqueue ReadyQueue arrivalChecker) JobQueue CLOCK
    else arrivalChecker_loop n ReadyQueue (enqueue JobQueue arrivalChecker) CLOCK
  end.

(** [for (int i = JobQueue->count; i > 0; i--)]: the bound is read once. *)
Definition arrivalChecker (ReadyQueue JobQueue : List) (CLOCK : Z) : res (List * List) :=
  arrivalChecker_loop (Z.to_nat (count JobQueue)) ReadyQueue JobQueue CLOCK.

(** [if (ReadyQueue->head != NULL) { insSortPriority(ReadyQueue); }] *)
Definition sort_if_nonempty (rq : List) : res List :=
  match nodes rq with
  | [] => Ret rq
  | _ :: _ => insSortPriority rq
  end.

(** A counted [for] loop whose body is [f]. *)
Fixpoint for_loop {A} (n : nat) (f : A → res A) (a : A) : res A :=
  match n with
  | O => Ret a
  | S n => a' ← f a; for_loop n f a'
  end.

(** The local variables of a scheduler together with the two lists it
    is handed; [currentProcess] points to a node that is in none of the
    three queues. *)
Record Sim : Type := mkSim {
  CLOCK : Z;
  currentProcess : option ProcessNode;
  ReadyQueue : List;
  JobQueue : List;
  ProcessQueue : List
}.

(** [while (ReadyQueue->count > 0) { enqueue(JobQueue, dequeue(ReadyQueue)); }] *)
Fixpoint fill_JobQueue (fuel : nat) (rq jq : List) : res (List * List) :=
  if count rq >? 0 then
    match fuel with
    | O => OutOfFuel
    | S fuel =>
      let '(ptr, rq) := dequeue rq in
      node ← deref ptr;
      fill_JobQueue fuel rq (enqueue jq node)
    end
  else Ret (rq, jq).

(** The first lines of [npp] and of [rr], up to the main loop.  The
    inner loop decrements [count] once per round, so [count] rounds are
    all it can take. *)
Definition sched_init (rq pq : List) : res Sim :=
  let jq := init_list in
  let '(cur, rq) := dequeue rq in
  '(rq, jq) ← fill_JobQueue (Z.to_nat (count rq)) rq jq;
  Ret (mkSim 0 cur rq jq pq).

(** *** NPP *)

(** One round of [for (int i = 0; i < currentProcess->burst; i++)]. *)
Definition npp_tick (s : Sim) : res Sim :=
  let clock := int_add (CLOCK s) 1 in
  '(rq, jq) ← arrivalChecker (ReadyQueue s) (JobQueue s) clock;
  rq ← sort_if_nonempty rq;
  Ret (mkSim clock (currentProcess s) rq jq (ProcessQueue s)).

(** What follows the [for] loop in one round of the main loop. *)
Definition npp_complete (cur : ProcessNode) (s : Sim) : res Sim :=
  let cur := set_waiting cur (int_sub (int_sub (CLOCK s) (arrival cur)) (burst cur)) in
  let cur := set_finish cur (CLOCK s) in
  let pq := enqueue (ProcessQueue s) cur in
  '(rq, jq) ← arrivalChecker (ReadyQueue s) (JobQueue s) (CLOCK s);
  rq ← sort_if_nonempty rq;
  let '(next, rq) := dequeue rq in
  Ret (mkSim (CLOCK s) next rq jq pq).

(** One round of [while (currentProcess != NULL)] in [npp]. *)
Definition npp_body (cur : ProcessNode) (s : Sim) : res Sim :=
  s ← for_loop (Z.to_nat (burst cur)) npp_tick s;
  npp_complete cur s.

Fixpoint npp_loop (fuel : nat) (s : Sim) : res Sim :=
  match currentProcess s with
  | None => Ret s
  | Some cur =>
    match fuel with
    | O => OutOfFuel
    | S fuel => s' ← npp_body cur s; npp_loop fuel s'
    end
  end.

(** [npp], with every local variable as it is when the main loop ends. *)
Definition npp_sim (fuel : nat) (rq pq : List) : res Sim :=
  s ← sched_init rq pq;
  npp_loop fuel s.

(** [npp(ReadyQueue, ProcessQueue)]: the two lists as the call leaves them. *)
Definition npp (fuel : nat) (rq pq : List) : res (List * List) :=
  s ← npp_sim fuel rq pq;
  Ret (ReadyQueue s, ProcessQueue s).

(** *** RR *)

(** [for (int i = 0; i < iQuantum; i++)] with [n] rounds left to go. *)
Fixpoint rr_slice (n : nat) (i iQuantum : Z) (cur : ProcessNode) (s : Sim)
  : res (ProcessNode * Sim) :=
  match n with
  | O => Ret (cur, s)
  | S n =>
    let clock := int_add (CLOCK s) 1 in
    let cur := set_leftover cur (int_sub (leftover cur) 1) in
    '(rq, jq) ←
       (if i <? int_sub iQuantum 1
        then arrivalChecker (ReadyQueue s) (JobQueue s) clock
        else Ret (ReadyQueue s, JobQueue s));
    let s := mkSim clock (currentProcess s) rq jq (ProcessQueue s) in
    if leftover cur =? 0 then Ret (cur, s)                          (* break *)
    else rr_slice n (int_add i 1) iQuantum cur s
  end.

(** "process completed in for loop", up to [arrivalChecker]. *)
Definition rr_complete (cur : ProcessNode) (s : Sim) : res Sim :=
  let cur := set_waiting cur (int_sub (int_sub (CLOCK s) (arrival cur)) (burst cur)) in
  let cur := set_finish cur (CLOCK s) in
  let pq := enqueue (ProcessQueue s) cur in
  '(rq, jq) ← arrivalChecker (ReadyQueue s) (JobQueue s) (CLOCK s);
  Ret (mkSim (CLOCK s) (currentProcess s) rq jq pq).

(** "process incomplete", up to [arrivalChecker]. *)
Definition rr_requeue (cur : ProcessNode) (s : Sim) : res Sim :=
  let rq := enqueue (ReadyQueue s) cur in
  '(rq, jq) ← arrivalChecker rq (JobQueue s) (CLOCK s);
  Ret (mkSim (CLOCK s) (currentProcess s) rq jq (ProcessQueue s)).

(** [currentProcess = dequeue(ReadyQueue);] *)
Definition pop_next (s : Sim) : Sim :=
  let '(next, rq) := dequeue (ReadyQueue s) in
  mkSim (CLOCK s) next rq (JobQueue s) (ProcessQueue s).

(** One round of [while (currentProcess != NULL)] in [rr]. *)
Definition rr_body (iQuantum : Z) (cur : ProcessNode) (s : Sim) : res Sim :=
  '(cur, s) ← rr_slice (Z.to_nat iQuantum) 0 iQuantum cur s;
  if leftover cur =? 0 then
    s ← rr_complete cur s; Ret (pop_next s)
  else
    s ← rr_requeue cur s; Ret (pop_next s).

Fixpoint rr_loop (fuel : nat) (iQuantum : Z) (s : Sim) : res Sim :=
  match currentProcess s with
  | None => Ret s
  | Some cur =>
    match fuel with
    | O => OutOfFuel
    | S fuel => s' ← rr_body iQuantum cur s; rr_loop fuel iQuantum s'
    end
  end.

Definition rr_sim (fuel : nat) (rq pq : List) (iQuantum : Z) : res Sim :=
  s ← sched_init rq pq;
  rr_loop fuel iQuantum s.

Definition rr (fuel : nat) (rq pq : List) (iQuantum : Z) : res (List * List) :=
  s ← rr_sim fuel rq pq iQuantum;
  Ret (ReadyQueue s, ProcessQueue s).

(** *** Dispatch *)

Definition processQueue (fuel : nat) (rq : List) (cAlgorithm : string)
    (iQuantum : Z) : res List :=
  let pq := init_list in
  if String.eqb cAlgorithm "NPP" then
    '(_, pq) ← npp fuel rq pq; Ret pq
  else if String.eqb cAlgorithm "RR" then
    '(_, pq) ← rr fuel rq pq iQuantum; Ret pq
  else Ret pq.

(* ------------------------------------------------------------------ *)
(** ** [main] *)
(* ------------------------------------------------------------------ *)

(** A line of the input file, as [fscanf(file, "%d %d %d %d", ...)]
    reads it: pid, arrival time, burst time, priority. *)
Definition descriptor : Type := Z * Z * Z * Z.

(** A line of the results file: pid, arrival, finish, waiting. *)
Definition report_line : Type := Z * Z * Z * Z.

(** The node [main] creates for a line of the input file. *)
Definition node_of (d : descriptor) : ProcessNode :=
  let '(iPid, iArrivalTime, iBurstTime, iPriority) := d in
  let currentProcess := init_process iPid iArrivalTime iBurstTime iPriority in
  set_leftover currentProcess (burst currentProcess).

(** The import loop that scans until end of file ([iLimit <= 0]). *)
Fixpoint import (file : list descriptor) (rq : List) : List :=
  match file with
  | [] => rq
  | d :: file => import file (enqueue rq (node_of d))
  end.

(** The import loop for a positive [iLimit], with [n] rounds to go.  The
    result of [fscanf] is not looked at: at the end of the file the four
    variables [vars] keep the values they have, and a node is made of
    them all the same. *)
Fixpoint import_limit (n : nat) (file : list descriptor) (vars : descriptor)
    (rq : List) : List :=
  match n with
  | O => rq
  | S n =>
    let '(vars, file) :=
      match file with
      | d :: file => (d, file)
      | [] => (vars, [])
      end in
    import_limit n file vars (enqueue rq (node_of vars))
  end.

(** The printing loop, [for (int i = ProcessQueue->count; i > 0; i--)]. *)
Fixpoint print_loop (n : nat) (pq : List) : res (list report_line) :=
  match n with
  | O => Ret []
  | S n =>
    let '(ptr, pq) := dequeue pq in
    p ← deref ptr;
    rest ← print_loop n pq;
    Ret ((pid p, arrival p, finish p, waiting p) :: rest)
  end.

Section Main.

(** [atoi] of the C library. *)
Variable atoi : string → Z.

(** What [iPid], [iArrivalTime], [iBurstTime] and [iPriority], which are
    not initialised, hold before the first [fscanf]. *)
Variable indeterminate : descriptor.

(** What the command line handling of [main] decides. *)
Inductive invocation : Type :=
| Exit (code : Z)                               (* [return code;] *)
| Invoke (cAlgorithm : string) (iQuantum iLimit : Z).

Definition arg (argv : list string) (n : nat) : string := default "" (argv !! n).

Definition handle_args (argv : list string) : invocation :=
  let argc := Z.of_nat (length argv) in
  if (argc <? 4) || (argc >? 6) then Exit 1
  else
    let cAlgorithm := arg argv 3 in
    if String.eqb cAlgorithm "NPP" && (argc =? 5) then
      Invoke cAlgorithm 0 (atoi (arg argv 4))
    else if String.eqb cAlgorithm "RR" && (argc =? 4) then Exit 1
    else if String.eqb cAlgorithm "RR" && (argc =? 5) then
      Invoke cAlgorithm (atoi (arg argv 4)) 0
    else if String.eqb cAlgorithm "RR" && (argc =? 6) then
      Invoke cAlgorithm (atoi (arg argv 4)) (atoi (arg argv 5))
    else Invoke cAlgorithm 0 0.

(** What a run of [main] comes to: an early [return], or the lines
    written to the results file.  The input file is taken as the
    sequence of records it holds; both files can be opened.  The
    averages, which are worked out and printed after the results file
    is closed, are left out. *)
Inductive outcome : Type :=
| Returned (code : Z)
| Printed (lines : list report_line).

Definition main (fuel : nat) (argv : list string) (file : list descriptor)
  : res outcome :=
  match handle_args argv with
  | Exit code => Ret (Returned code)
  | Invoke cAlgorithm iQuantum iLimit =>
    let rq :=
      if iLimit >? 0
      then import_limit (Z.to_nat iLimit) file indeterminate init_list
      else import file init_list in
    pq ← processQueue fuel rq cAlgorithm iQuantum;
    lines ← print_loop (Z.to_nat (count pq)) pq;
    Ret (Printed lines)
  end.

End Main.

(* ================================================================== *)
(** * The vocabulary of the statements *)
(* ================================================================== *)

(** ** Queues *)

(** [count] is the number of nodes in the chain. *)
Definition counted (q : List) : Prop := count q = Z.of_nat (length (nodes q)).

(** ** Sorting by priority *)

(** The sorted prefix is handled back to front: [ins_rev x r] is the
    prefix [reverse r] after [x], placed right behind it, has been moved
    leftwards past every record of strictly larger priority value. *)
Fixpoint ins_rev (x : ProcessNode) (r : list ProcessNode) : list ProcessNode :=
  match r with
  | [] => [x]
  | a :: r' => if priority a >? priority x then a :: ins_rev x r' else x :: r
  end.

(** What [insSortPriority] makes of the chain [l]. *)
Definition isort (l : list ProcessNode) : list ProcessNode :=
  match l with
  | [] => []
  | a :: rest => reverse (fold_left (λ r x, ins_rev x r) rest [a])
  end.

(** Ascending order of the [priority] field. *)
Definition by_priority (a b : ProcessNode) : Prop := priority a <= priority b.

(** [r] holds a sorted prefix back to front. *)
Definition descending (r : list ProcessNode) : Prop :=
  StronglySorted (flip by_priority) r.

(** The records of one priority value, in queue order. *)
Definition of_priority (k : Z) (l : list ProcessNode) : list ProcessNode :=
  filter (λ p, priority p = k) l.

(** ** Admission *)

(** The records of a pool that arrive at [clock], and the others, both
    in pool order. *)
Definition arrived (clock : Z) (l : list ProcessNode) : list ProcessNode :=
  filter (λ p, arrival p = clock) l.
Definition pending (clock : Z) (l : list ProcessNode) : list ProcessNode :=
  filter (λ p, arrival p ≠ clock) l.

(** The queue with chain [l] and the matching [count]. *)
Definition mk (l : list ProcessNode) : List := mkList l (Z.of_nat (length l)).

(** ** The schedulers on sequences *)

(** As long as no more than [INT_MAX] nodes exist, every [count] of a
    scheduler is determined by its chain, no pointer that is read is
    [NULL], and a round of a main loop is a function of the clock, the
    running process and the three sequences. *)
Record Abs : Type := mkAbs {
  a_clock : Z;
  a_cur : option ProcessNode;
  a_ready : list ProcessNode;
  a_job : list ProcessNode;
  a_done : list ProcessNode
}.

(** The variables of the program in that situation.  After the
    [dequeue] that returned [NULL] the ready queue is empty, and its
    [count] is [-1]. *)
Definition conc (a : Abs) : Sim :=
  mkSim (a_clock a) (a_cur a)
        (match a_cur a with Some _ => mk (a_ready a) | None => mkList [] (-1) end)
        (mk (a_job a)) (mk (a_done a)).

(** The number of nodes there are. *)
Definition size (a : Abs) : nat :=
  length (a_ready a) + length (a_job a) + length (a_done a)
  + (match a_cur a with Some _ => 1 | None => 0 end).

(** The state after [currentProcess = dequeue(ReadyQueue)]. *)
Definition popA (c : Z) (rq jq pq : list ProcessNode) : Abs :=
  match rq with
  | [] => mkAbs c None [] jq pq
  | next :: rest => mkAbs c (Some next) rest jq pq
  end.

(** The record of a process that completes at clock [c]. *)
Definition complete (cur : ProcessNode) (c : Z) : ProcessNode :=
  set_finish (set_waiting cur (int_sub (int_sub c (arrival cur)) (burst cur))) c.

(** [n] ticks of [npp]: the clock, the ready sequence and the pool. *)
Fixpoint npp_ticks (n : nat) (c : Z) (rq jq : list ProcessNode)
  : Z * list ProcessNode * list ProcessNode :=
  match n with
  | O => (c, rq, jq)
  | S n =>
    let c' := int_add c 1 in
    npp_ticks n c' (isort (rq ++ arrived c' jq)) (pending c' jq)
  end.

(** A round of the main loop of [npp]. *)
Definition npp_bodyA (cur : ProcessNode) (a : Abs) : Abs :=
  let '(c, rq, jq) :=
    npp_ticks (Z.to_nat (burst cur)) (a_clock a) (a_ready a) (a_job a) in
  popA c (isort (rq ++ arrived c jq)) (pending c jq) (a_done a ++ [complete cur c]).

(** [while (currentProcess != NULL)], at most [fuel] rounds of it. *)
Fixpoint loopA (body : ProcessNode → Abs → Abs) (fuel : nat) (a : Abs)
  : option Abs :=
  match a_cur a with
  | None => Some a
  | Some cur =>
    match fuel with
    | O => None
    | S fuel => loopA body fuel (body cur a)
    end
  end.

(** The outcome of a main loop of the program, from the one on
    sequences. *)
Definition lift (r : option Abs) : res Sim :=
  match r with
  | Some a => Ret (conc a)
  | None => OutOfFuel
  end.

(** The ticks of a slice of [rr], [n] at most. *)
Fixpoint rr_sliceA (n : nat) (i iQuantum : Z) (cur : ProcessNode) (c : Z)
    (rq jq : list ProcessNode)
  : ProcessNode * Z * list ProcessNode * list ProcessNode :=
  match n with
  | O => (cur, c, rq, jq)
  | S n =>
    let c := int_add c 1 in
    let cur := set_leftover cur (int_sub (leftover cur) 1) in
    let '(rq, jq) :=
      if i <? int_sub iQuantum 1 then (rq ++ arrived c jq, pending c jq)
      else (rq, jq) in
    if leftover cur =? 0 then (cur, c, rq, jq)
    else rr_sliceA n (int_add i 1) iQuantum cur c rq jq
  end.

(** A round of the main loop of [rr]. *)
Definition rr_bodyA (iQuantum : Z) (cur : ProcessNode) (a : Abs) : Abs :=
  let '(cur, c, rq, jq) :=
    rr_sliceA (Z.to_nat iQuantum) 0 iQuantum cur (a_clock a) (a_ready a) (a_job a) in
  if leftover cur =? 0
  then popA c (rq ++ arrived c jq) (pending c jq) (a_done a ++ [complete cur c])
  else popA c ((rq ++ [cur]) ++ arrived c jq) (pending c jq) (a_done a).

(** The state in which the main loop of either scheduler is entered,
    for the imported sequence [l]. *)
Definition initA (l : list ProcessNode) : Abs :=
  match l with
  | [] => mkAbs 0 None [] [] []
  | p :: l => mkAbs 0 (Some p) [] l []
  end.

(** The nodes that are not yet in the result queue. *)
Definition live (a : Abs) : list ProcessNode :=
  match a_cur a with Some p => [p] | None => [] end ++ a_ready a ++ a_job a.

(** A process that still has something to run. *)
Definition runnable (p : ProcessNode) : Prop := 0 < leftover p <= INT_MAX.

(** The ticks left to run, over a sequence of nodes. *)
Definition total_leftover (l : list ProcessNode) : nat :=
  sum_list_with (λ p, Z.to_nat (leftover p)) l.

(** ** Recorded times and run blocks *)

(** [finish == arrival + burst + waiting], as the program would evaluate
    it, and between the integers themselves as soon as
    [finish - arrival - burst] fits an [int]. *)
Definition completed_ok (p : ProcessNode) : Prop :=
  finish p = int_add (int_add (arrival p) (burst p)) (waiting p)
  ∧ (is_int (finish p - arrival p - burst p) →
     finish p = arrival p + burst p + waiting p).

(** The invariant behind it: the clock is an [int]. *)
Definition times_ok (a : Abs) : Prop :=
  is_int (a_clock a) ∧ Forall completed_ok (a_done a).

(** The records of [out] account for the clock from [start] to [stop]
    without a gap or an overlap: each one finishes [burst] ticks after
    the one before it did, the first one [burst] ticks after [start]. *)
Fixpoint back_to_back (start : Z) (out : list ProcessNode) (stop : Z) : Prop :=
  match out with
  | [] => stop = start
  | p :: out => finish p = int_add start (burst p) ∧ back_to_back (finish p) out stop
  end.

(** The invariant behind it, for burst times that are not negative. *)
Definition in_blocks (a : Abs) : Prop :=
  is_int (a_clock a)
  ∧ back_to_back 0 (a_done a) (a_clock a)
  ∧ Forall (λ p, 0 <= burst p) (live a).

(** The three scenarios: lines of an input file. *)
Definition scenario_A : list descriptor := [(1, 0, 5, 2); (2, 0, 3, 1); (3, 0, 8, 3)].
Definition scenario_B : list descriptor := [(1, 0, 5, 0); (2, 0, 3, 0)].
Definition scenario_C : list descriptor := [(1, 0, 2, 0); (2, 5, 2, 0)].

(** ** Further vocabulary *)

(** The line the printing loop of [main] writes for a record. *)
Definition line_of (p : ProcessNode) : report_line :=
  (pid p, arrival p, finish p, waiting p).

(** The line of the input file a node was made of. *)
Definition descriptor_of (p : ProcessNode) : descriptor :=
  (pid p, arrival p, burst p, priority p).

(** What [npp] leaves alone in a node: every field but [finish] and
    [waiting]. *)
Definition untimed_of (p : ProcessNode) : descriptor * Z :=
  (descriptor_of p, leftover p).

(** Every node is accounted for: the records that are done and the
    nodes still in circulation are, under [f], the imported ones; and
    the ready sequence is empty once nothing runs. *)
Definition conserved {B} (f : ProcessNode → B) (l : list ProcessNode) (a : Abs)
  : Prop :=
  map f (a_done a ++ live a) ≡ₚ map f l
  ∧ (a_cur a = None → a_ready a = []).

(** The burst time of a sequence of nodes, all told. *)
Definition total_burst (l : list ProcessNode) : nat :=
  sum_list_with (λ p, Z.to_nat (burst p)) l.

(** The records whose arrival time is not positive. *)
Definition early (l : list ProcessNode) : list ProcessNode :=
  filter (λ p, arrival p <= 0) l.

(** The running process, if any, followed by the ready sequence. *)
Definition runq (a : Abs) : list ProcessNode :=
  match a_cur a with Some p => [p] | None => [] end ++ a_ready a.

(** No [int] overflows during a run of [npp]: the clock plus the burst
    time still to run fits.  The pool then keeps its early records. *)
Definition npp_in_range (job0 : list ProcessNode) (a : Abs) : Prop :=
  0 <= a_clock a
  ∧ a_clock a + Z.of_nat (total_burst (live a)) <= INT_MAX
  ∧ Forall (λ p, 0 < burst p) (live a)
  ∧ early (a_job a) = early job0.

(** A record whose times are as one expects them: it did not wait a
    negative time, and the identity holds between the integers. *)
Definition waited (r : ProcessNode) : Prop :=
  0 <= waiting r ∧ finish r = arrival r + burst r + waiting r.

(** Every process that runs or is ready has arrived, and every record
    that is done has [waited]. *)
Definition npp_waited (a : Abs) : Prop :=
  Forall (λ r, 0 <= arrival r <= a_clock a) (runq a)
  ∧ Forall waited (a_done a).

(** The same for [rr], with the time left to run in place of the burst
    time. *)
Definition rr_in_range (job0 : list ProcessNode) (a : Abs) : Prop :=
  0 <= a_clock a
  ∧ a_clock a + Z.of_nat (total_leftover (live a)) <= INT_MAX
  ∧ Forall runnable (live a)
  ∧ early (a_job a) = early job0.

(** At clock [c] the process [r] has arrived, and the ticks it has run
    fit between its arrival and [c]. *)
Definition served (c : Z) (r : ProcessNode) : Prop :=
  0 <= arrival r ∧ leftover r <= burst r
  ∧ arrival r + (burst r - leftover r) <= c.

Definition rr_waited (a : Abs) : Prop :=
  Forall (served (a_clock a)) (runq a)
  ∧ Forall (λ r, leftover r = burst r) (a_job a)
  ∧ Forall waited (a_done a).

(* ================================================================== *)
(** * Properties *)
(* ================================================================== *)

#[local] Arguments Z.gtb : simpl never.
#[local] Arguments Z.geb : simpl never.
#[local] Arguments Z.ltb : simpl never.
#[local] Arguments Z.leb : simpl never.
#[local] Arguments Z.eqb : simpl never.

(* ------------------------------------------------------------------ *)
(** ** Machine integers *)
(* ------------------------------------------------------------------ *)

Lemma wrap_id z : is_int z → wrap z = z.
Proof.
  unfold is_int, INT_MIN, INT_MAX, wrap. intros Hz.
  rewrite Z.mod_small; lia.
Qed.

Lemma wrap_is_int z : is_int (wrap z).
Proof.
  unfold is_int, INT_MIN, INT_MAX, wrap.
  pose proof (Z.mod_pos_bound (z + 2147483648) 4294967296). lia.
Qed.

Lemma wrap_add_l a b : wrap (wrap a + b) = wrap (a + b).
Proof.
  unfold wrap. f_equal.
  replace ((a + 2147483648) mod 4294967296 - 2147483648 + b + 2147483648)
    with ((a + 2147483648) mod 4294967296 + b) by lia.
  rewrite Zplus_mod_idemp_l. f_equal. lia.
Qed.

Lemma wrap_add_r a b : wrap (a + wrap b) = wrap (a + b).
Proof. rewrite (Z.add_comm a), wrap_add_l. f_equal. lia. Qed.

Lemma wrap_sub_l a b : wrap (wrap a - b) = wrap (a - b).
Proof. unfold Z.sub. apply wrap_add_l. Qed.

(* ------------------------------------------------------------------ *)
(** ** Well-formed queues *)
(* ------------------------------------------------------------------ *)

Lemma dequeue_cons q p l :
  nodes q = p :: l → dequeue q = (Some p, mkList l (int_sub (count q) 1)).
Proof. unfold dequeue. intros ->. by destruct l. Qed.

Lemma dequeue_nil q :
  nodes q = [] → dequeue q = (None, mkList [] (int_sub (count q) 1)).
Proof. unfold dequeue. by intros ->. Qed.

(* ------------------------------------------------------------------ *)
(** ** [insSortPriority] *)
(* ------------------------------------------------------------------ *)

Lemma length_ins_rev x r : length (ins_rev x r) = S (length r).
Proof.
  induction r as [|a r IH]; simpl; [done|].
  destruct (priority a >? priority x); simpl; by rewrite ?IH.
Qed.

Lemma swapWithNext_middle pre a b post :
  swapWithNext (pre ++ a :: b :: post) (length pre) = Ret (pre ++ b :: a :: post).
Proof.
  unfold swapWithNext.
  rewrite (list_lookup_middle pre _ a (length pre)) by done. simpl.
  rewrite (lookup_app_r pre) by lia.
  replace (S (length pre) - length pre)%nat with 1%nat by lia. simpl.
  f_equal.
  rewrite (insert_app_r_alt pre _ (length pre)) by lia.
  rewrite insert_app_r_alt by lia.
  replace (length pre - length pre)%nat with 0%nat by lia.
  replace (S (length pre) - length pre)%nat with 1%nat by lia.
  done.
Qed.

Lemma sift_step pre a x post :
  sift (pre ++ a :: x :: post) (length pre)
  = if priority a >? priority x
    then match length pre with
         | O => Ret (pre ++ x :: a :: post)
         | S i' => sift (pre ++ x :: a :: post) i'
         end
    else Ret (pre ++ a :: x :: post).
Proof.
  assert (H : ∀ i, i = length pre →
    sift (pre ++ a :: x :: post) i
    = if priority a >? priority x
      then match i with
           | O => Ret (pre ++ x :: a :: post)
           | S i' => sift (pre ++ x :: a :: post) i'
           end
      else Ret (pre ++ a :: x :: post)); [|by apply H].
  intros i Hi.
  assert (Ha : (pre ++ a :: x :: post) !! i = Some a)
    by (by apply list_lookup_middle).
  assert (Hx : (pre ++ a :: x :: post) !! S i = Some x).
  { rewrite lookup_app_r by lia. by replace (S i - length pre)%nat with 1%nat by lia. }
  assert (Hs : swapWithNext (pre ++ a :: x :: post) i = Ret (pre ++ x :: a :: post))
    by (subst i; apply swapWithNext_middle).
  destruct i; simpl; rewrite Ha; simpl; rewrite Hx; simpl;
    destruct (priority a >? priority x); try rewrite Hs; done.
Qed.

Lemma sift_spec r a x post :
  sift (reverse (a :: r) ++ x :: post) (length r)
  = Ret (reverse (ins_rev x (a :: r)) ++ post).
Proof.
  revert a post. induction r as [|b r IH]; intros a post.
  - change (sift ([] ++ a :: x :: post) (length (@nil ProcessNode))
            = Ret (reverse (ins_rev x [a]) ++ post)).
    rewrite sift_step. simpl. by destruct (priority a >? priority x).
  - rewrite reverse_cons, <- app_assoc.
    change ([a] ++ x :: post) with (a :: x :: post).
    rewrite <- (length_reverse (b :: r)), sift_step, length_reverse. simpl.
    destruct (priority a >? priority x).
    + rewrite IH. f_equal.
      rewrite reverse_cons, <- app_assoc. done.
    + f_equal. rewrite !reverse_cons, <- !app_assoc. done.
Qed.

Lemma insSort_loop_spec rest : ∀ fuel a r,
  rest ≠ [] → (length rest <= fuel)%nat →
  insSort_loop fuel (reverse (a :: r) ++ rest) (length r) (length r)
  = Ret (reverse (fold_left (λ r x, ins_rev x r) rest (a :: r))).
Proof.
  induction rest as [|x rest IH]; intros fuel a r Hne Hfuel; [done|].
  destruct fuel as [|fuel]; [simpl in Hfuel; lia|].
  assert (Hlen : S (length r) = length (reverse (a :: r)))
    by (by rewrite length_reverse).
  cbn [fold_left].
  pose proof (length_ins_rev x (a :: r)) as Hl.
  unfold insSort_loop; fold insSort_loop.
  rewrite (list_lookup_middle (reverse (a :: r)) rest x _ Hlen). simpl mbind.
  assert (Hi : (reverse (a :: r) ++ x :: rest) !! length r = Some a).
  { rewrite reverse_cons, <- app_assoc. apply list_lookup_middle.
    by rewrite length_reverse. }
  rewrite Hi. simpl mbind.
  assert (Hstep :
    (if priority x >=? priority a
     then Ret (reverse (a :: r) ++ x :: rest, S (length r))
     else l' ← sift (reverse (a :: r) ++ x :: rest) (length r);
          Ret (l', S (length r)))
    = Ret (reverse (ins_rev x (a :: r)) ++ rest, S (length r))).
  { rewrite sift_spec. simpl.
    destruct (priority x >=? priority a) eqn:E1,
             (priority a >? priority x) eqn:E2; try lia; try done.
    rewrite (reverse_cons (a :: r) x), <- app_assoc. done. }
  rewrite Hstep. clear Hstep.
  destruct (ins_rev x (a :: r)) as [|b r']; [done|].
  assert (Hr' : length r' = S (length r)) by (simpl in Hl; lia).
  simpl mbind.
  rewrite lookup_app_r by (rewrite length_reverse; simpl; lia).
  rewrite length_reverse. simpl length.
  replace (S (S (length r)) - S (length r'))%nat with 0%nat by lia.
  destruct rest as [|y rest'].
  - simpl. by rewrite app_nil_r.
  - simpl lookup. rewrite <- Hr'. apply IH; [done|simpl in *; lia].
Qed.

Lemma insSortPriority_isort q :
  nodes q ≠ [] → counted q →
  insSortPriority q = Ret (mkList (isort (nodes q)) (count q)).
Proof.
  unfold counted, insSortPriority. destruct q as [l c]. cbn [nodes count].
  intros Hne ->. destruct l as [|a rest]; [done|].
  destruct (Z.of_nat (length (a :: rest)) =? 1) eqn:E.
  - destruct rest; [done|]. apply Z.eqb_eq in E. cbn [length] in E. lia.
  - destruct rest as [|x rest]; [done|].
    pose proof (insSort_loop_spec (x :: rest) (S (length (a :: x :: rest))) a [])
      as Hspec.
    change (reverse [a] ++ x :: rest) with (a :: x :: rest) in Hspec.
    cbn [nodes]. change (length (@nil ProcessNode)) with 0%nat in Hspec.
    rewrite Hspec; [done|done|cbn [length]; lia].
Qed.

(** *** What [isort] achieves *)

Lemma ins_rev_perm x r : ins_rev x r ≡ₚ x :: r.
Proof.
  induction r as [|a r IH]; simpl; [done|].
  destruct (priority a >? priority x); [|done].
  rewrite IH. apply Permutation_swap.
Qed.

Lemma fold_ins_rev_perm rest r :
  fold_left (λ r x, ins_rev x r) rest r ≡ₚ r ++ rest.
Proof.
  revert r. induction rest as [|x rest IH]; intros r; simpl.
  - by rewrite app_nil_r.
  - rewrite IH, ins_rev_perm. simpl. apply Permutation_middle.
Qed.

Lemma isort_perm l : isort l ≡ₚ l.
Proof.
  destruct l as [|a rest]; simpl; [done|].
  by rewrite reverse_Permutation, fold_ins_rev_perm.
Qed.

Lemma ins_rev_descending x r : descending r → descending (ins_rev x r).
Proof.
  unfold descending. induction 1 as [|a r Hr IH Ha]; simpl.
  - repeat constructor.
  - destruct (priority a >? priority x) eqn:E.
    + constructor; [done|].
      apply Forall_forall. intros y Hy.
      rewrite ins_rev_perm in Hy. apply elem_of_cons in Hy as [->|Hy].
      * unfold flip, by_priority. lia.
      * by eapply Forall_forall in Ha.
    + constructor; [by constructor|].
      constructor; [unfold flip, by_priority; lia|].
      eapply Forall_impl; [exact Ha|].
      unfold flip, by_priority. intros y Hy. lia.
Qed.

Lemma fold_ins_rev_descending rest r :
  descending r → descending (fold_left (λ r x, ins_rev x r) rest r).
Proof.
  revert r. induction rest as [|x rest IH]; intros r Hr; simpl; [done|].
  by apply IH, ins_rev_descending.
Qed.

Lemma descending_reverse r : descending r → StronglySorted by_priority (reverse r).
Proof.
  unfold descending. induction 1 as [|a r Hr IH Ha].
  - constructor.
  - rewrite reverse_cons. apply StronglySorted_app_2; [|done|repeat constructor].
    intros y z Hy Hz. apply list_elem_of_singleton in Hz as ->.
    rewrite elem_of_reverse in Hy. rewrite Forall_forall in Ha. by apply Ha.
Qed.

Lemma isort_sorted l : StronglySorted by_priority (isort l).
Proof.
  destruct l as [|a rest]; simpl; [constructor|].
  apply descending_reverse, fold_ins_rev_descending. repeat constructor.
Qed.

Lemma of_priority_app k l1 l2 :
  of_priority k (l1 ++ l2) = of_priority k l1 ++ of_priority k l2.
Proof. apply filter_app. Qed.

Lemma ins_rev_stable k x r :
  of_priority k (reverse (ins_rev x r)) = of_priority k (reverse r ++ [x]).
Proof.
  unfold of_priority. induction r as [|a r IH]; simpl; [done|].
  destruct (priority a >? priority x) eqn:E; [|by rewrite reverse_cons].
  rewrite !reverse_cons, !filter_app, IH, filter_app, <- !app_assoc. f_equal.
  rewrite !filter_cons, !filter_nil.
  repeat case_decide; try done. lia.
Qed.

Lemma fold_ins_rev_stable k rest r :
  of_priority k (reverse (fold_left (λ r x, ins_rev x r) rest r))
  = of_priority k (reverse r ++ rest).
Proof.
  revert r. induction rest as [|x rest IH]; intros r; simpl.
  - by rewrite app_nil_r.
  - rewrite IH, of_priority_app, ins_rev_stable, <- of_priority_app.
    by rewrite <- app_assoc.
Qed.

Lemma isort_stable k l : of_priority k (isort l) = of_priority k l.
Proof.
  destruct l as [|a rest]; simpl; [done|].
  by rewrite fold_ins_rev_stable.
Qed.

(** C6.  On a non-empty queue whose [count] is its number of nodes,
    [insSortPriority] returns, leaves [count] alone and rearranges the
    records into a permutation that ascends in [priority]; the records
    of any one priority value keep their order among themselves. *)
Theorem insSortPriority_stable_sort (q : List) :
  nodes q ≠ [] → counted q →
  ∃ q', insSortPriority q = Ret q'
        ∧ count q' = count q
        ∧ nodes q' ≡ₚ nodes q
        ∧ StronglySorted by_priority (nodes q')
        ∧ ∀ k, of_priority k (nodes q') = of_priority k (nodes q).
Proof.
  intros Hne Hc. eexists. split; [by apply insSortPriority_isort|]. simpl.
  split; [done|]. split; [apply isort_perm|].
  split; [apply isort_sorted|]. intros k. apply isort_stable.
Qed.

Lemma insSortPriority_stable_sort_witness :
  let q := mkList [init_process 1 0 5 2; init_process 2 0 3 1;
                   init_process 3 0 8 2; init_process 4 0 1 1] 4 in
  ∃ q', insSortPriority q = Ret q'
        ∧ count q' = count q
        ∧ nodes q' ≡ₚ nodes q
        ∧ StronglySorted by_priority (nodes q')
        ∧ ∀ k, of_priority k (nodes q') = of_priority k (nodes q).
Proof.
  intros q. apply (insSortPriority_stable_sort q); [done | reflexivity].
Defined.

(** The hypothesis on [count] cannot be dropped: [insSortPriority]
    recognises the queue of one node by its [count], and the loop that
    follows reads [ptr->next->priority] without a test. *)
Remark insSortPriority_reads_count :
  let a := init_process 1 0 1 2 in
  let b := init_process 2 0 1 1 in
  insSortPriority (mkList [a; b] 1) = Ret (mkList [a; b] 1)
  ∧ insSortPriority (mkList [a] 0) = NullDeref.
Proof. by vm_compute. Qed.

(* ------------------------------------------------------------------ *)
(** ** [arrivalChecker] *)
(* ------------------------------------------------------------------ *)

Lemma length_arrived_pending clock l :
  (length (arrived clock l) + length (pending clock l) = length l)%nat.
Proof.
  unfold arrived, pending. induction l as [|p l IH]; [done|].
  rewrite !filter_cons. repeat case_decide; simpl; lia.
Qed.

Lemma arrived_pending_perm clock l : arrived clock l ++ pending clock l ≡ₚ l.
Proof.
  unfold arrived, pending. induction l as [|p l IH]; [done|].
  rewrite !filter_cons. repeat case_decide; try done; simpl.
  - by rewrite IH.
  - by rewrite <- Permutation_middle, IH.
Qed.

Lemma admit_perm clock rq jq :
  (rq ++ arrived clock jq) ++ pending clock jq ≡ₚ rq ++ jq.
Proof. by rewrite <- app_assoc, arrived_pending_perm. Qed.

(** The loop, with [todo] still to examine at the front of the pool and
    [kept], already examined, behind it. *)
Lemma arrivalChecker_loop_spec clock todo : ∀ rq kept c,
  is_int (count rq) →
  c = Z.of_nat (length (todo ++ kept)) → c <= INT_MAX →
  arrivalChecker_loop (length todo) rq (mkList (todo ++ kept) c) clock
  = Ret (mkList (nodes rq ++ arrived clock todo)
                (wrap (count rq + Z.of_nat (length (arrived clock todo)))),
         mkList (kept ++ pending clock todo)
                (c - Z.of_nat (length (arrived clock todo)))).
Proof.
  unfold arrived, pending.
  induction todo as [|p todo IH]; intros rq kept c Hrq Hc Hmax.
  - simpl. rewrite !filter_nil, !app_nil_r. simpl.
    destruct rq as [l n]. simpl in *.
    rewrite Z.add_0_r, Z.sub_0_r, wrap_id; done.
  - cbn [length arrivalChecker_loop].
    rewrite (dequeue_cons _ p (todo ++ kept)) by done.
    cbn [deref mbind res_bind count].
    assert (Hdec : int_sub c 1 = c - 1).
    { unfold int_sub. apply wrap_id. subst c. cbn [app length].
      unfold is_int, INT_MIN, INT_MAX in *. cbn [app length] in Hmax. lia. }
    rewrite Hdec.
    assert (Hlen : c - 1 = Z.of_nat (length (todo ++ kept)))
      by (subst c; cbn [app length]; lia).
    destruct (Z.eqb_spec (arrival p) clock) as [Heq|Hne].
    + rewrite IH; [|apply wrap_is_int|done|lia].
      rewrite filter_cons_True, (filter_cons_False (λ p, arrival p ≠ clock))
        by (done || (intros ?; done)).
      cbn [enqueue nodes count length]. unfold int_add.
      rewrite wrap_add_l, <- app_assoc. simpl app.
      rewrite Nat2Z.inj_succ. f_equal. f_equal; f_equal; [f_equal|]; lia.
    + unfold enqueue at 1. cbn [nodes count]. unfold int_add.
      replace (c - 1 + 1) with c by lia.
      rewrite wrap_id by (unfold is_int, INT_MIN, INT_MAX in *; lia).
      rewrite <- app_assoc.
      rewrite IH; [|done|rewrite !length_app in *; cbn [length] in *; lia|done].
      rewrite filter_cons_False, (filter_cons_True (λ p, arrival p ≠ clock))
        by done.
      by rewrite <- app_assoc.
Qed.

(** What a call makes of a pool whose [count] is its number of nodes. *)
Lemma arrivalChecker_counted (rq jq : List) (clock : Z) :
  counted jq → is_int (count jq) → is_int (count rq) →
  arrivalChecker rq jq clock
  = Ret (mkList (nodes rq ++ arrived clock (nodes jq))
                (wrap (count rq + Z.of_nat (length (arrived clock (nodes jq))))),
         mkList (pending clock (nodes jq))
                (Z.of_nat (length (pending clock (nodes jq))))).
Proof.
  unfold counted, arrivalChecker. destruct jq as [l c]. cbn [nodes count].
  intros -> Hc Hrq. rewrite Nat2Z.id.
  pose proof (arrivalChecker_loop_spec clock l rq [] (Z.of_nat (length l)) Hrq)
    as H.
  rewrite app_nil_r in H. rewrite H; [|done|unfold is_int in Hc; lia].
  cbn [app]. do 3 f_equal.
  pose proof (length_arrived_pending clock l). lia.
Qed.

(** C7.  Called with a pool whose [count] is its number of nodes,
    [arrivalChecker] returns.  Afterwards the ready queue is what it
    was, followed by the records of the pool that arrive at [clock], in
    pool order; the pool holds its other records, in pool order, and
    its [count] is their number.  The loop has as many rounds as the
    pool had records, each round takes one of them from the head, and
    the two queues together hold the records they held: none is lost,
    copied or altered. *)
Theorem arrivalChecker_spec (rq jq : List) (clock : Z) :
  counted jq → is_int (count jq) → is_int (count rq) →
  ∃ rq' jq',
    arrivalChecker rq jq clock = Ret (rq', jq')
    ∧ arrivalChecker rq jq clock
      = arrivalChecker_loop (length (nodes jq)) rq jq clock
    ∧ nodes rq' = nodes rq ++ arrived clock (nodes jq)
    ∧ nodes jq' = pending clock (nodes jq)
    ∧ counted jq'
    ∧ count rq' = wrap (count rq + Z.of_nat (length (arrived clock (nodes jq))))
    ∧ nodes rq' ++ nodes jq' ≡ₚ nodes rq ++ nodes jq.
Proof.
  intros Hc Hi Hrq. eexists _, _.
  split; [by apply arrivalChecker_counted|].
  split; [unfold arrivalChecker; by rewrite Hc, Nat2Z.id|].
  cbn [nodes count]. repeat split. apply admit_perm.
Qed.

Lemma arrivalChecker_spec_witness :
  let rq := mkList [init_process 9 0 1 0] 1 in
  let jq := mkList [init_process 1 3 5 2; init_process 2 4 3 1;
                    init_process 3 3 8 2; init_process 4 7 1 1] 4 in
  counted jq ∧ is_int (count jq) ∧ is_int (count rq)
  ∧ ∃ rq' jq',
      arrivalChecker rq jq 3 = Ret (rq', jq')
      ∧ map pid (nodes rq') = [9; 1; 3]
      ∧ map pid (nodes jq') = [2; 4].
Proof.
  intros rq jq.
  assert (Hc : counted jq) by reflexivity.
  assert (Hi : is_int (count jq)) by (by vm_compute).
  assert (Hr : is_int (count rq)) by (by vm_compute).
  split; [done|]. split; [done|]. split; [done|].
  destruct (arrivalChecker_spec rq jq 3 Hc Hi Hr)
    as (rq' & jq' & H & _ & H1 & H2 & _).
  exists rq', jq'. split; [done|]. by rewrite H1, H2.
Defined.

(** Here too [count] matters: it is the number of rounds of the loop. *)
Remark arrivalChecker_reads_count :
  let a := init_process 1 3 1 0 in
  let b := init_process 2 3 1 0 in
  arrivalChecker init_list (mkList [a; b] 1) 3
  = Ret (mkList [a] 1, mkList [b] 0)
  ∧ arrivalChecker init_list (mkList [a] 2) 3 = NullDeref.
Proof. by vm_compute. Qed.

(* ------------------------------------------------------------------ *)
(** ** Queues whose [count] is right *)
(* ------------------------------------------------------------------ *)

Lemma counted_mk l : counted (mk l).
Proof. reflexivity. Qed.

Lemma enqueue_mk l p :
  Z.of_nat (length l) < INT_MAX → enqueue (mk l) p = mk (l ++ [p]).
Proof.
  intros H. unfold enqueue, mk, int_add. cbn [nodes count]. f_equal.
  rewrite length_app. cbn [length].
  rewrite wrap_id; unfold is_int, INT_MIN, INT_MAX in *; lia.
Qed.

Lemma dequeue_mk_cons p l :
  Z.of_nat (length (p :: l)) <= INT_MAX → dequeue (mk (p :: l)) = (Some p, mk l).
Proof.
  intros H. rewrite (dequeue_cons _ p l) by done. unfold mk, int_sub.
  cbn [count length] in *. do 2 f_equal.
  rewrite wrap_id; unfold is_int, INT_MIN, INT_MAX in *; lia.
Qed.

Lemma arrivalChecker_mk rq jq clock :
  Z.of_nat (length rq + length jq) <= INT_MAX →
  arrivalChecker (mk rq) (mk jq) clock
  = Ret (mk (rq ++ arrived clock jq), mk (pending clock jq)).
Proof.
  intros H.
  rewrite arrivalChecker_counted;
    [|apply counted_mk
     |unfold mk, is_int, INT_MIN, INT_MAX in *; cbn [count]; lia
     |unfold mk, is_int, INT_MIN, INT_MAX in *; cbn [count]; lia].
  unfold mk. cbn [nodes count]. do 3 f_equal.
  rewrite length_app, Nat2Z.inj_add. apply wrap_id.
  pose proof (length_arrived_pending clock jq).
  unfold is_int, INT_MIN, INT_MAX in *. lia.
Qed.

Lemma length_isort l : length (isort l) = length l.
Proof. apply Permutation_length, isort_perm. Qed.

Lemma sort_if_nonempty_mk l : sort_if_nonempty (mk l) = Ret (mk (isort l)).
Proof.
  unfold sort_if_nonempty. destruct l as [|a l]; [done|].
  cbn [mk nodes]. change (mkList (a :: l) _) with (mk (a :: l)).
  rewrite insSortPriority_isort by done.
  unfold mk. cbn [nodes count]. by rewrite length_isort.
Qed.

Lemma fill_JobQueue_mk rq : ∀ jq,
  Z.of_nat (length rq + length jq) <= INT_MAX →
  fill_JobQueue (length rq) (mk rq) (mk jq) = Ret (mk [], mk (jq ++ rq)).
Proof.
  induction rq as [|p rq IH]; intros jq H.
  - cbn. by rewrite app_nil_r.
  - cbn [length fill_JobQueue].
    assert (Hc : (count (mk (p :: rq)) >? 0) = true)
      by (apply Z.gtb_lt; unfold mk; cbn [count length]; lia).
    rewrite Hc.
    rewrite dequeue_mk_cons by (cbn [length] in *; lia).
    cbn [deref mbind res_bind].
    rewrite enqueue_mk by (unfold INT_MAX in *; cbn [length] in *; lia).
    rewrite IH by (rewrite length_app; cbn [length] in *; lia).
    by rewrite <- app_assoc.
Qed.

Lemma import_mk file : ∀ l,
  Z.of_nat (length l + length file) <= INT_MAX →
  import file (mk l) = mk (l ++ map node_of file).
Proof.
  induction file as [|[[[a b] c] d] file IH]; intros l H.
  - cbn. by rewrite app_nil_r.
  - cbn [import map].
    rewrite enqueue_mk by (unfold INT_MAX in *; cbn [length] in *; lia).
    rewrite IH by (rewrite length_app; cbn [length] in *; lia).
    by rewrite <- app_assoc.
Qed.

Lemma sched_init_mk l pq :
  Z.of_nat (length l) <= INT_MAX →
  sched_init (mk l) pq
  = Ret match l with
        | [] => mkSim 0 None (mkList [] (-1)) (mk []) pq
        | p :: l => mkSim 0 (Some p) (mk []) (mk l) pq
        end.
Proof.
  intros H. unfold sched_init. destruct l as [|p l]; [done|].
  rewrite dequeue_mk_cons by done.
  change (count (mk l)) with (Z.of_nat (length l)). rewrite Nat2Z.id.
  change init_list with (mk []).
  rewrite fill_JobQueue_mk by (cbn [length] in *; lia).
  done.
Qed.

(* ------------------------------------------------------------------ *)
(** ** The schedulers on sequences *)
(* ------------------------------------------------------------------ *)

Lemma length_admit clock rq jq :
  (length (rq ++ arrived clock jq) + length (pending clock jq)
   = length rq + length jq)%nat.
Proof. rewrite length_app. pose proof (length_arrived_pending clock jq). lia. Qed.

Lemma npp_ticks_length n : ∀ c rq jq c' rq' jq',
  npp_ticks n c rq jq = (c', rq', jq') →
  (length rq' + length jq' = length rq + length jq)%nat.
Proof.
  induction n as [|n IH]; intros c rq jq c' rq' jq' H; simpl in H.
  - by inversion H.
  - apply IH in H. rewrite length_isort, length_admit in H. done.
Qed.

Lemma npp_tick_mk c cp rq jq pq :
  Z.of_nat (length rq + length jq) <= INT_MAX →
  npp_tick (mkSim c cp (mk rq) (mk jq) pq)
  = Ret (mkSim (int_add c 1) cp (mk (isort (rq ++ arrived (int_add c 1) jq)))
               (mk (pending (int_add c 1) jq)) pq).
Proof.
  intros H. unfold npp_tick.
  cbn [CLOCK ReadyQueue JobQueue ProcessQueue currentProcess].
  rewrite arrivalChecker_mk by done. cbn [mbind res_bind].
  by rewrite sort_if_nonempty_mk.
Qed.

Lemma for_loop_npp_tick n : ∀ c cp rq jq pq,
  Z.of_nat (length rq + length jq) <= INT_MAX →
  for_loop n npp_tick (mkSim c cp (mk rq) (mk jq) pq)
  = Ret (let '(c', rq', jq') := npp_ticks n c rq jq in
         mkSim c' cp (mk rq') (mk jq') pq).
Proof.
  induction n as [|n IH]; intros c cp rq jq pq H; [done|].
  cbn [for_loop npp_ticks]. rewrite npp_tick_mk by done.
  cbn [mbind res_bind].
  apply IH. rewrite length_isort, length_admit. done.
Qed.

Lemma size_popA c rq jq pq :
  size (popA c rq jq pq) = (length rq + length jq + length pq)%nat.
Proof. unfold popA, size. destruct rq; cbn; lia. Qed.

Lemma pop_next_conc c cp rq jq pq :
  Z.of_nat (length rq) <= INT_MAX →
  pop_next (mkSim c cp (mk rq) (mk jq) (mk pq)) = conc (popA c rq jq pq).
Proof.
  intros H. unfold pop_next. cbn [ReadyQueue CLOCK JobQueue ProcessQueue].
  destruct rq as [|next rest]; [done|].
  by rewrite dequeue_mk_cons.
Qed.

Lemma size_npp_bodyA cur a : a_cur a = Some cur → size (npp_bodyA cur a) = size a.
Proof.
  intros Hcur. unfold npp_bodyA.
  destruct (npp_ticks _ _ _ _) as [[c rq] jq] eqn:E.
  apply npp_ticks_length in E.
  rewrite size_popA, length_isort, length_admit, length_app. unfold size.
  rewrite Hcur. cbn [length]. lia.
Qed.

Lemma npp_body_conc cur a :
  a_cur a = Some cur → Z.of_nat (size a) <= INT_MAX →
  npp_body cur (conc a) = Ret (conc (npp_bodyA cur a)).
Proof.
  intros Hcur Hsize. unfold npp_body, npp_bodyA, conc at 1. rewrite Hcur.
  unfold size in Hsize. rewrite Hcur in Hsize.
  rewrite for_loop_npp_tick by lia.
  destruct (npp_ticks _ _ _ _) as [[c rq] jq] eqn:E.
  apply npp_ticks_length in E.
  cbn [mbind res_bind]. unfold npp_complete.
  cbn [CLOCK ReadyQueue JobQueue ProcessQueue currentProcess].
  rewrite arrivalChecker_mk by lia. cbn [mbind res_bind].
  rewrite sort_if_nonempty_mk. cbn [mbind res_bind].
  rewrite enqueue_mk by (unfold INT_MAX in *; lia).
  pose proof (length_admit c rq jq) as Hl.
  pose proof (length_isort (rq ++ arrived c jq)) as Hs.
  fold (complete cur c).
  destruct (isort (rq ++ arrived c jq)) as [|next rest] eqn:Es; [done|].
  rewrite dequeue_mk_cons by lia. done.
Qed.

Lemma npp_loop_conc fuel : ∀ a,
  Z.of_nat (size a) <= INT_MAX →
  npp_loop fuel (conc a) = lift (loopA npp_bodyA fuel a).
Proof.
  induction fuel as [|fuel IH]; intros a Hsize.
  - cbn. by destruct (a_cur a).
  - cbn [npp_loop loopA]. change (currentProcess (conc a)) with (a_cur a).
    destruct (a_cur a) as [cur|] eqn:Hcur; [|done].
    rewrite npp_body_conc by done. cbn [mbind res_bind].
    apply IH. by rewrite size_npp_bodyA.
Qed.

Lemma rr_sliceA_length n : ∀ i q cur c rq jq cur' c' rq' jq',
  rr_sliceA n i q cur c rq jq = (cur', c', rq', jq') →
  (length rq' + length jq' = length rq + length jq)%nat.
Proof.
  induction n as [|n IH]; intros i q cur c rq jq cur' c' rq' jq' H;
    cbn [rr_sliceA] in H.
  - by inversion H.
  - destruct (i <? int_sub q 1);
      destruct (leftover (set_leftover cur (int_sub (leftover cur) 1)) =? 0);
      try (apply IH in H); try (inversion H; subst);
      rewrite ?length_admit in *; done.
Qed.

Lemma rr_slice_mk n : ∀ i q cur c cp rq jq pq,
  Z.of_nat (length rq + length jq) <= INT_MAX →
  rr_slice n i q cur (mkSim c cp (mk rq) (mk jq) pq)
  = Ret (let '(cur', c', rq', jq') := rr_sliceA n i q cur c rq jq in
         (cur', mkSim c' cp (mk rq') (mk jq') pq)).
Proof.
  induction n as [|n IH]; intros i q cur c cp rq jq pq H; [done|].
  cbn [rr_slice rr_sliceA CLOCK ReadyQueue JobQueue ProcessQueue currentProcess].
  destruct (i <? int_sub q 1).
  - rewrite arrivalChecker_mk by done. cbn [mbind res_bind].
    destruct (leftover (set_leftover cur (int_sub (leftover cur) 1)) =? 0);
      [done|].
    apply IH. by rewrite length_admit.
  - cbn [mbind res_bind].
    destruct (leftover (set_leftover cur (int_sub (leftover cur) 1)) =? 0);
      [done|].
    by apply IH.
Qed.

Lemma size_rr_bodyA q cur a : a_cur a = Some cur → size (rr_bodyA q cur a) = size a.
Proof.
  intros Hcur. unfold rr_bodyA.
  destruct (rr_sliceA _ _ _ _ _ _ _) as [[[cur' c] rq] jq] eqn:E.
  apply rr_sliceA_length in E.
  destruct (leftover cur' =? 0);
    rewrite size_popA, length_admit, !length_app; unfold size;
    rewrite Hcur; cbn [length]; lia.
Qed.

Lemma rr_body_conc q cur a :
  a_cur a = Some cur → Z.of_nat (size a) <= INT_MAX →
  rr_body q cur (conc a) = Ret (conc (rr_bodyA q cur a)).
Proof.
  intros Hcur Hsize. unfold rr_body, rr_bodyA, conc at 1. rewrite Hcur.
  unfold size in Hsize. rewrite Hcur in Hsize.
  rewrite rr_slice_mk by lia.
  destruct (rr_sliceA _ _ _ _ _ _ _) as [[[cur' c] rq] jq] eqn:E.
  apply rr_sliceA_length in E.
  cbn [mbind res_bind].
  destruct (leftover cur' =? 0).
  - unfold rr_complete.
    cbn [CLOCK ReadyQueue JobQueue ProcessQueue currentProcess].
    rewrite arrivalChecker_mk by lia. cbn [mbind res_bind].
    rewrite enqueue_mk by (unfold INT_MAX in *; lia).
    fold (complete cur' c). f_equal. apply pop_next_conc.
    pose proof (length_admit c rq jq). lia.
  - unfold rr_requeue.
    cbn [CLOCK ReadyQueue JobQueue ProcessQueue currentProcess].
    rewrite enqueue_mk by (unfold INT_MAX in *; lia).
    rewrite arrivalChecker_mk by (rewrite length_app; cbn [length]; lia).
    cbn [mbind res_bind]. f_equal. apply pop_next_conc.
    pose proof (length_admit c (rq ++ [cur']) jq) as Hl.
    rewrite (length_app rq) in Hl. cbn [length] in Hl. lia.
Qed.

Lemma rr_loop_conc q fuel : ∀ a,
  Z.of_nat (size a) <= INT_MAX →
  rr_loop fuel q (conc a) = lift (loopA (rr_bodyA q) fuel a).
Proof.
  induction fuel as [|fuel IH]; intros a Hsize.
  - cbn. by destruct (a_cur a).
  - cbn [rr_loop loopA]. change (currentProcess (conc a)) with (a_cur a).
    destruct (a_cur a) as [cur|] eqn:Hcur; [|done].
    rewrite rr_body_conc by done. cbn [mbind res_bind].
    apply IH. by rewrite size_rr_bodyA.
Qed.

Lemma sched_init_conc l :
  Z.of_nat (length l) <= INT_MAX →
  sched_init (mk l) init_list = Ret (conc (initA l)).
Proof. intros H. rewrite sched_init_mk by done. by destruct l. Qed.

Lemma size_initA l : size (initA l) = length l.
Proof. destruct l; cbn; lia. Qed.

Lemma npp_sim_conc fuel l :
  Z.of_nat (length l) <= INT_MAX →
  npp_sim fuel (mk l) init_list = lift (loopA npp_bodyA fuel (initA l)).
Proof.
  intros H. unfold npp_sim. rewrite sched_init_conc by done.
  cbn [mbind res_bind]. apply npp_loop_conc. by rewrite size_initA.
Qed.

Lemma rr_sim_conc fuel q l :
  Z.of_nat (length l) <= INT_MAX →
  rr_sim fuel (mk l) init_list q = lift (loopA (rr_bodyA q) fuel (initA l)).
Proof.
  intros H. unfold rr_sim. rewrite sched_init_conc by done.
  cbn [mbind res_bind]. apply rr_loop_conc. by rewrite size_initA.
Qed.

Lemma import_init file :
  Z.of_nat (length file) <= INT_MAX →
  import file init_list = mk (map node_of file).
Proof. intros H. change init_list with (mk []). by rewrite import_mk. Qed.


(* ------------------------------------------------------------------ *)
(** ** Reasoning about a main loop *)
(* ------------------------------------------------------------------ *)

Section Loop.

Variable body : ProcessNode → Abs → Abs.
Variable I : Abs → Prop.
Hypothesis I_body : ∀ cur a, a_cur a = Some cur → I a → I (body cur a).

Lemma loopA_invariant fuel : ∀ a a',
  I a → loopA body fuel a = Some a' → I a' ∧ a_cur a' = None.
Proof.
  induction fuel as [|fuel IH]; intros a a' Ha H; cbn [loopA] in H;
    destruct (a_cur a) as [cur|] eqn:Hcur; try done.
  - inversion H; by subst.
  - eapply IH; [|exact H]. by apply I_body.
  - inversion H; by subst.
Qed.

Variable measure : Abs → nat.
Hypothesis measure_body :
  ∀ cur a, a_cur a = Some cur → I a → (measure (body cur a) < measure a)%nat.

Lemma loopA_terminates fuel : ∀ a,
  I a → (measure a <= fuel)%nat → is_Some (loopA body fuel a).
Proof.
  induction fuel as [|fuel IH]; intros a Ha Hm; cbn [loopA];
    destruct (a_cur a) as [cur|] eqn:Hcur; try done.
  - pose proof (measure_body cur a Hcur Ha). lia.
  - apply IH; [by apply I_body|].
    pose proof (measure_body cur a Hcur Ha). lia.
Qed.

End Loop.

Lemma live_popA c rq jq pq : live (popA c rq jq pq) = rq ++ jq.
Proof. by destruct rq. Qed.

Lemma a_done_popA c rq jq pq : a_done (popA c rq jq pq) = pq.
Proof. by destruct rq. Qed.

Lemma a_clock_popA c rq jq pq : a_clock (popA c rq jq pq) = c.
Proof. by destruct rq. Qed.

Lemma npp_ticks_perm n : ∀ c rq jq c' rq' jq',
  npp_ticks n c rq jq = (c', rq', jq') → rq' ++ jq' ≡ₚ rq ++ jq.
Proof.
  induction n as [|n IH]; intros c rq jq c' rq' jq' H; cbn [npp_ticks] in H.
  - by inversion H.
  - apply IH in H. by rewrite isort_perm, admit_perm in H.
Qed.

Lemma npp_ticks_clock n : ∀ c rq jq c' rq' jq',
  is_int c → npp_ticks n c rq jq = (c', rq', jq') →
  c' = wrap (c + Z.of_nat n).
Proof.
  induction n as [|n IH]; intros c rq jq c' rq' jq' Hc H; cbn [npp_ticks] in H.
  - inversion H; subst. rewrite Z.add_0_r. by rewrite wrap_id.
  - apply IH in H; [|apply wrap_is_int]. subst c'. unfold int_add.
    rewrite wrap_add_l. f_equal. lia.
Qed.

Lemma live_npp_bodyA cur a :
  a_cur a = Some cur → cur :: live (npp_bodyA cur a) ≡ₚ live a.
Proof.
  intros Hcur. unfold npp_bodyA.
  destruct (npp_ticks _ _ _ _) as [[c rq] jq] eqn:E.
  apply npp_ticks_perm in E.
  rewrite live_popA, isort_perm, admit_perm, E. unfold live. by rewrite Hcur.
Qed.

(** [npp] comes to an end: a round of the main loop takes one node out
    of circulation. *)
Lemma npp_terminates fuel l :
  (length l <= fuel)%nat → is_Some (loopA npp_bodyA fuel (initA l)).
Proof.
  intros Hfuel.
  apply (loopA_terminates npp_bodyA (λ _, True) (λ _ _ _ _, I)
           (λ a, length (live a))).
  - intros cur a Hcur _.
    rewrite <- (Permutation_length (live_npp_bodyA cur a Hcur)).
    cbn [length]. lia.
  - done.
  - destruct l; cbn in *; lia.
Qed.

Lemma rr_sliceA_perm n : ∀ i q cur c rq jq cur' c' rq' jq',
  rr_sliceA n i q cur c rq jq = (cur', c', rq', jq') →
  rq' ++ jq' ≡ₚ rq ++ jq.
Proof.
  induction n as [|n IH]; intros i q cur c rq jq cur' c' rq' jq' H;
    cbn [rr_sliceA] in H.
  - by inversion H.
  - destruct (i <? int_sub q 1);
      destruct (leftover (set_leftover cur (int_sub (leftover cur) 1)) =? 0);
      first [ apply IH in H; by rewrite ?admit_perm in H
            | inversion H; subst; by rewrite ?admit_perm ].
Qed.

Lemma rr_sliceA_clock n : ∀ i q cur c rq jq cur' c' rq' jq',
  is_int c → rr_sliceA n i q cur c rq jq = (cur', c', rq', jq') → is_int c'.
Proof.
  induction n as [|n IH]; intros i q cur c rq jq cur' c' rq' jq' Hc H;
    cbn [rr_sliceA] in H.
  - by inversion H; subst.
  - destruct (i <? int_sub q 1);
      destruct (leftover (set_leftover cur (int_sub (leftover cur) 1)) =? 0);
      try (apply IH in H; [done|apply wrap_is_int]);
      inversion H; subst; apply wrap_is_int.
Qed.

Lemma rr_sliceA_cur n : ∀ i q cur c rq jq cur' c' rq' jq',
  runnable cur →
  rr_sliceA n i q cur c rq jq = (cur', c', rq', jq') →
  cur' = set_leftover cur (leftover cur')
  ∧ 0 <= leftover cur' <= leftover cur
  ∧ (n ≠ O → leftover cur' < leftover cur).
Proof.
  unfold runnable.
  induction n as [|n IH]; intros i q cur c rq jq cur' c' rq' jq' Hcur H;
    cbn [rr_sliceA] in H.
  - inversion H; subst. destruct cur'; cbn in *. split; [done|]. lia.
  - assert (Hdec : int_sub (leftover cur) 1 = leftover cur - 1).
    { apply wrap_id. unfold is_int, INT_MIN, INT_MAX in *. lia. }
    rewrite Hdec in H.
    set (cur1 := set_leftover cur (leftover cur - 1)) in *.
    assert (Hl1 : leftover cur1 = leftover cur - 1) by done.
    assert (Hr : ∀ rq1 jq1,
      (if leftover cur1 =? 0 then (cur1, int_add c 1, rq1, jq1)
       else rr_sliceA n (int_add i 1) q cur1 (int_add c 1) rq1 jq1)
      = (cur', c', rq', jq') →
      cur' = set_leftover cur (leftover cur')
      ∧ 0 <= leftover cur' <= leftover cur
      ∧ (S n ≠ O → leftover cur' < leftover cur)).
    { intros rq1 jq1 H1. destruct (Z.eqb_spec (leftover cur1) 0) as [E|E].
      - inversion H1; subst cur'. rewrite Hl1. split; [done|]. lia.
      - apply IH in H1 as (H1 & H2 & _); [|lia].
        split; [|lia]. rewrite H1. by destruct cur. }
    destruct (i <? int_sub q 1); eapply Hr, H.
Qed.

Lemma rr_bodyA_live q cur a :
  a_cur a = Some cur → runnable cur → 0 < q →
  ∃ cur', cur' = set_leftover cur (leftover cur')
    ∧ 0 <= leftover cur' < leftover cur
    ∧ live (rr_bodyA q cur a)
      ≡ₚ (if leftover cur' =? 0 then [] else [cur']) ++ a_ready a ++ a_job a.
Proof.
  intros Hcur Hrun Hq. unfold rr_bodyA.
  destruct (rr_sliceA _ _ _ _ _ _ _) as [[[cur' c] rq] jq] eqn:E.
  pose proof (rr_sliceA_perm _ _ _ _ _ _ _ _ _ _ _ E) as Hp.
  apply rr_sliceA_cur in E as (H1 & H2 & H3); [|done].
  exists cur'. split; [done|]. split; [split; [lia|apply H3; lia]|].
  destruct (leftover cur' =? 0); rewrite live_popA, admit_perm.
  - done.
  - rewrite <- app_assoc. cbn [app]. by rewrite <- Permutation_middle, Hp.
Qed.

(** [rr] comes to an end when the quantum is positive and every
    imported process has a positive burst time: a round of the main loop
    runs at least one of the ticks left. *)
Lemma rr_terminates fuel q l :
  0 < q → Forall runnable l → (total_leftover l <= fuel)%nat →
  is_Some (loopA (rr_bodyA q) fuel (initA l)).
Proof.
  intros Hq Hl Hfuel.
  apply (loopA_terminates (rr_bodyA q) (λ a, Forall runnable (live a)))
    with (measure := λ a, total_leftover (live a)).
  - intros cur a Hcur Ha.
    assert (Hrun : runnable cur).
    { unfold live in Ha. rewrite Hcur in Ha. by inversion Ha. }
    destruct (rr_bodyA_live q cur a Hcur Hrun Hq) as (cur' & H1 & H2 & H3).
    rewrite H3. unfold live in Ha. rewrite Hcur in Ha.
    apply Forall_app in Ha as [_ Ha].
    apply Forall_app. split; [|done].
    destruct (Z.eqb_spec (leftover cur') 0); [done|].
    repeat constructor; unfold runnable in *; lia.
  - intros cur a Hcur Ha.
    assert (Hrun : runnable cur).
    { unfold live in Ha. rewrite Hcur in Ha. by inversion Ha. }
    destruct (rr_bodyA_live q cur a Hcur Hrun Hq) as (cur' & H1 & H2 & H3).
    unfold total_leftover. rewrite H3. unfold live. rewrite Hcur.
    rewrite !sum_list_with_app.
    destruct (Z.eqb_spec (leftover cur') 0); cbn [sum_list_with]; lia.
  - by destruct l.
  - by destruct l.
Qed.

(* ------------------------------------------------------------------ *)
(** ** Runs of the schedulers *)
(* ------------------------------------------------------------------ *)

Lemma counted_is_mk q :
  counted q → is_int (count q) →
  q = mk (nodes q) ∧ Z.of_nat (length (nodes q)) <= INT_MAX.
Proof.
  unfold counted, is_int, mk. destruct q as [l c]. cbn [nodes count].
  intros -> H. split; [done|lia].
Qed.

Lemma lift_Ret r s : lift r = Ret s → ∃ a, r = Some a ∧ s = conc a.
Proof. destruct r as [a|]; [|done]. intros [= <-]. by exists a. Qed.

Lemma npp_sim_Ret fuel l s :
  Z.of_nat (length l) <= INT_MAX →
  npp_sim fuel (mk l) init_list = Ret s →
  ∃ a, loopA npp_bodyA fuel (initA l) = Some a ∧ s = conc a.
Proof. intros Hl. rewrite npp_sim_conc by done. apply lift_Ret. Qed.

Lemma rr_sim_Ret fuel q l s :
  Z.of_nat (length l) <= INT_MAX →
  rr_sim fuel (mk l) init_list q = Ret s →
  ∃ a, loopA (rr_bodyA q) fuel (initA l) = Some a ∧ s = conc a.
Proof. intros Hl. rewrite rr_sim_conc by done. apply lift_Ret. Qed.

Lemma bind_Ret {A B} (m : res A) (f : A → res B) b :
  m ≫= f = Ret b → ∃ a, m = Ret a ∧ f a = Ret b.
Proof. destruct m as [a| |]; [|done..]. intros H. by exists a. Qed.

Lemma loopA_stops body fuel a a' : loopA body fuel a = Some a' → a_cur a' = None.
Proof.
  intros H.
  by destruct (loopA_invariant body (λ _, True) (λ _ _ _ _, I) fuel a a' I H).
Qed.

Lemma npp_returns fuel rq :
  counted rq → is_int (count rq) → (length (nodes rq) <= fuel)%nat →
  ∃ a, npp_sim fuel rq init_list = Ret (conc a)
       ∧ loopA npp_bodyA fuel (initA (nodes rq)) = Some a.
Proof.
  intros Hc Hi Hfuel. destruct (counted_is_mk rq Hc Hi) as [Hmk Hlen].
  destruct (npp_terminates fuel (nodes rq) Hfuel) as [a Ha].
  exists a. split; [|done]. rewrite Hmk, npp_sim_conc by done. by rewrite Ha.
Qed.

Lemma rr_returns fuel q rq :
  counted rq → is_int (count rq) → 0 < q → Forall runnable (nodes rq) →
  (total_leftover (nodes rq) <= fuel)%nat →
  ∃ a, rr_sim fuel rq init_list q = Ret (conc a)
       ∧ loopA (rr_bodyA q) fuel (initA (nodes rq)) = Some a.
Proof.
  intros Hc Hi Hq Hrun Hfuel. destruct (counted_is_mk rq Hc Hi) as [Hmk Hlen].
  destruct (rr_terminates fuel q (nodes rq) Hq Hrun Hfuel) as [a Ha].
  exists a. split; [|done]. rewrite Hmk, rr_sim_conc by done. by rewrite Ha.
Qed.

(** C10.  [dequeue] on an empty queue returns [NULL] and still
    decrements [count], which makes it [-1] on a fresh list.  Whenever
    [npp] or [rr] returns, its main loop was left through that very
    call: the ready queue it leaves behind has no node and [count = -1],
    so [count] is not the number of nodes.  [npp] always returns in
    this way, and so does [rr] when the quantum and the time every
    process has left are positive. *)
Theorem dequeue_empty_ends_schedulers :
  (∀ q, nodes q = [] → dequeue q = (None, mkList [] (int_sub (count q) 1)))
  ∧ dequeue init_list = (None, mkList [] (-1))
  ∧ (∀ fuel rq rq' pq', counted rq → is_int (count rq) →
       npp fuel rq init_list = Ret (rq', pq') → rq' = mkList [] (-1))
  ∧ (∀ fuel iQuantum rq rq' pq', counted rq → is_int (count rq) →
       rr fuel rq init_list iQuantum = Ret (rq', pq') → rq' = mkList [] (-1))
  ∧ (∀ fuel rq, counted rq → is_int (count rq) →
       (length (nodes rq) <= fuel)%nat →
       ∃ pq', npp fuel rq init_list = Ret (mkList [] (-1), pq'))
  ∧ (∀ fuel iQuantum rq, counted rq → is_int (count rq) →
       0 < iQuantum → Forall runnable (nodes rq) →
       (total_leftover (nodes rq) <= fuel)%nat →
       ∃ pq', rr fuel rq init_list iQuantum = Ret (mkList [] (-1), pq'))
  ∧ ¬ counted (mkList [] (-1)).
Proof.
  split; [apply dequeue_nil|]. split; [done|].
  repeat split; [| | | |done].
  - intros fuel rq rq' pq' Hc Hi H.
    destruct (counted_is_mk rq Hc Hi) as [Hmk Hlen]. rewrite Hmk in H.
    unfold npp in H. apply bind_Ret in H as (s & Hs & [= <- <-]).
    apply npp_sim_Ret in Hs as (a & Ha & ->); [|done].
    apply loopA_stops in Ha. unfold conc. by rewrite Ha.
  - intros fuel q rq rq' pq' Hc Hi H.
    destruct (counted_is_mk rq Hc Hi) as [Hmk Hlen]. rewrite Hmk in H.
    unfold rr in H. apply bind_Ret in H as (s & Hs & [= <- <-]).
    apply rr_sim_Ret in Hs as (a & Ha & ->); [|done].
    apply loopA_stops in Ha. unfold conc. by rewrite Ha.
  - intros fuel rq Hc Hi Hfuel.
    destruct (npp_returns fuel rq Hc Hi Hfuel) as (a & Hs & Ha).
    apply loopA_stops in Ha. unfold npp. rewrite Hs. cbn [mbind res_bind].
    unfold conc. rewrite Ha. cbn [ReadyQueue ProcessQueue]. eauto.
  - intros fuel q rq Hc Hi Hq Hrun Hfuel.
    destruct (rr_returns fuel q rq Hc Hi Hq Hrun Hfuel) as (a & Hs & Ha).
    apply loopA_stops in Ha. unfold rr. rewrite Hs. cbn [mbind res_bind].
    unfold conc. rewrite Ha. cbn [ReadyQueue ProcessQueue]. eauto.
Qed.

Lemma dequeue_empty_ends_schedulers_witness :
  let rq := import [(1, 0, 2, 0); (2, 1, 2, 0)] init_list in
  counted rq ∧ is_int (count rq)
  ∧ ∃ rq' pq', npp 3 rq init_list = Ret (rq', pq') ∧ rq' = mkList [] (-1).
Proof.
  intros rq. split; [reflexivity|]. split; [by vm_compute|].
  destruct dequeue_empty_ends_schedulers as (_ & _ & H & _).
  eexists _, _. split; [by vm_compute|].
  eapply (H 3%nat rq); [reflexivity|by vm_compute|by vm_compute].
Defined.

(** *** The identity between the recorded times *)

Lemma completed_ok_complete cur c : is_int c → completed_ok (complete cur c).
Proof.
  intros Hc. unfold completed_ok, complete, int_add, int_sub. cbn. split.
  - rewrite wrap_add_l, wrap_add_r.
    replace (arrival cur + burst cur + (wrap (c - arrival cur) - burst cur))
      with (wrap (c - arrival cur) + arrival cur) by lia.
    rewrite wrap_add_l.
    replace (c - arrival cur + arrival cur) with c by lia.
    by rewrite wrap_id.
  - intros H. rewrite wrap_sub_l, (wrap_id _ H). lia.
Qed.

Lemma npp_ticks_is_int n c rq jq c' rq' jq' :
  is_int c → npp_ticks n c rq jq = (c', rq', jq') → is_int c'.
Proof.
  intros Hc H. apply npp_ticks_clock in H; [|done]. subst. apply wrap_is_int.
Qed.

Lemma times_ok_npp cur a : times_ok a → times_ok (npp_bodyA cur a).
Proof.
  intros [Hc Hd]. unfold npp_bodyA.
  destruct (npp_ticks _ _ _ _) as [[c rq] jq] eqn:E.
  apply npp_ticks_is_int in E; [|done].
  unfold times_ok. rewrite a_clock_popA, a_done_popA. split; [done|].
  apply Forall_app. split; [done|]. apply Forall_singleton.
  by apply completed_ok_complete.
Qed.

Lemma times_ok_rr q cur a : times_ok a → times_ok (rr_bodyA q cur a).
Proof.
  intros [Hc Hd]. unfold rr_bodyA.
  destruct (rr_sliceA _ _ _ _ _ _ _) as [[[cur' c] rq] jq] eqn:E.
  apply rr_sliceA_clock in E; [|done].
  unfold times_ok.
  destruct (leftover cur' =? 0); rewrite a_clock_popA, a_done_popA;
    (split; [done|]); [|done].
  apply Forall_app. split; [done|]. apply Forall_singleton.
  by apply completed_ok_complete.
Qed.

Lemma times_ok_initA l : times_ok (initA l).
Proof. destruct l; (split; [done|constructor]). Qed.

(** C5.  Whatever [processQueue] returns, under either algorithm, each
    record [p] of the result queue satisfies
    [finish == arrival + burst + waiting].  [NPP] does return, and so
    does [RR] when the quantum and the time every process has left are
    positive. *)
Theorem finish_is_arrival_plus_burst_plus_waiting :
  (∀ fuel rq cAlgorithm iQuantum pq,
     counted rq → is_int (count rq) →
     processQueue fuel rq cAlgorithm iQuantum = Ret pq →
     Forall completed_ok (nodes pq))
  ∧ (∀ fuel rq iQuantum,
       counted rq → is_int (count rq) → (length (nodes rq) <= fuel)%nat →
       ∃ pq, processQueue fuel rq "NPP" iQuantum = Ret pq)
  ∧ (∀ fuel rq iQuantum,
       counted rq → is_int (count rq) → 0 < iQuantum →
       Forall runnable (nodes rq) →
       (total_leftover (nodes rq) <= fuel)%nat →
       ∃ pq, processQueue fuel rq "RR" iQuantum = Ret pq).
Proof.
  split; [|split].
  - intros fuel rq alg q pq Hc Hi H.
    destruct (counted_is_mk rq Hc Hi) as [Hmk Hlen]. rewrite Hmk in H.
    unfold processQueue in H.
    destruct (String.eqb alg "NPP"); [|destruct (String.eqb alg "RR")].
    + apply bind_Ret in H as ([rq' pq'] & H & [= <-]).
      unfold npp in H. apply bind_Ret in H as (s & Hs & [= _ <-]).
      apply npp_sim_Ret in Hs as (a & Ha & ->); [|done].
      apply (loopA_invariant npp_bodyA times_ok) in Ha as [[_ Ha] _];
        [done|intros; by apply times_ok_npp|apply times_ok_initA].
    + apply bind_Ret in H as ([rq' pq'] & H & [= <-]).
      unfold rr in H. apply bind_Ret in H as (s & Hs & [= _ <-]).
      apply rr_sim_Ret in Hs as (a & Ha & ->); [|done].
      apply (loopA_invariant (rr_bodyA q) times_ok) in Ha as [[_ Ha] _];
        [done|intros; by apply times_ok_rr|apply times_ok_initA].
    + injection H as <-. constructor.
  - intros fuel rq q Hc Hi Hfuel.
    destruct (npp_returns fuel rq Hc Hi Hfuel) as (a & Ha & _).
    unfold processQueue, npp. cbn [String.eqb Ascii.eqb Bool.eqb].
    rewrite Ha. cbn. eauto.
  - intros fuel rq q Hc Hi Hq Hrun Hfuel.
    destruct (rr_returns fuel q rq Hc Hi Hq Hrun Hfuel) as (a & Ha & _).
    unfold processQueue, rr. cbn [String.eqb Ascii.eqb Bool.eqb].
    rewrite Ha. cbn. eauto.
Qed.

Lemma finish_is_arrival_plus_burst_plus_waiting_witness :
  let rq := import [(1, 0, 5, 2); (2, 1, 3, 1); (3, 2, 8, 3); (4, 3, 1, 0)]
                   init_list in
  counted rq ∧ is_int (count rq)
  ∧ ∃ pq, processQueue 20 rq "RR" 2 = Ret pq
          ∧ length (nodes pq) = 4%nat
          ∧ Forall completed_ok (nodes pq).
Proof.
  intros rq. split; [reflexivity|]. split; [by vm_compute|].
  destruct finish_is_arrival_plus_burst_plus_waiting as (H & _ & _).
  eexists. split; [by vm_compute|]. split; [reflexivity|].
  eapply (H 20%nat rq "RR" 2); [reflexivity|by vm_compute|by vm_compute].
Defined.

(** *** NPP runs a process in one block *)

Lemma back_to_back_snoc start out stop p :
  back_to_back start out stop → finish p = int_add stop (burst p) →
  back_to_back start (out ++ [p]) (finish p).
Proof.
  revert start. induction out as [|x out IH]; intros start; cbn.
  - by intros ->.
  - intros [H1 H2] Hp. split; [done|]. by apply IH.
Qed.

Lemma npp_bodyA_clock cur a :
  is_int (a_clock a) → 0 <= burst cur →
  a_clock (npp_bodyA cur a) = int_add (a_clock a) (burst cur)
  ∧ a_done (npp_bodyA cur a) = a_done a ++ [complete cur (a_clock (npp_bodyA cur a))].
Proof.
  intros Hc Hb. unfold npp_bodyA.
  destruct (npp_ticks _ _ _ _) as [[c rq] jq] eqn:E.
  apply npp_ticks_clock in E; [|done]. rewrite Z2Nat.id in E by done.
  by rewrite a_clock_popA, a_done_popA.
Qed.

Lemma in_blocks_npp cur a :
  a_cur a = Some cur → in_blocks a → in_blocks (npp_bodyA cur a).
Proof.
  intros Hcur (Hc & Hd & Hl).
  assert (Hb : 0 <= burst cur).
  { unfold live in Hl. rewrite Hcur in Hl. by inversion Hl. }
  destruct (npp_bodyA_clock cur a Hc Hb) as [H1 H2].
  split; [rewrite H1; apply wrap_is_int|]. split.
  - rewrite H2.
    change (a_clock (npp_bodyA cur a))
      with (finish (complete cur (a_clock (npp_bodyA cur a)))) at 2.
    apply (back_to_back_snoc _ _ (a_clock a)); [done|]. by rewrite H1.
  - rewrite <- (live_npp_bodyA cur a Hcur) in Hl. by inversion Hl.
Qed.

Lemma npp_tick_keeps s s' :
  npp_tick s = Ret s' →
  currentProcess s' = currentProcess s ∧ ProcessQueue s' = ProcessQueue s
  ∧ CLOCK s' = int_add (CLOCK s) 1.
Proof.
  unfold npp_tick. intros H.
  apply bind_Ret in H as ([rq jq] & _ & H).
  apply bind_Ret in H as (rq' & _ & [= <-]). done.
Qed.

Lemma for_loop_npp_tick_keeps k : ∀ s s',
  for_loop k npp_tick s = Ret s' →
  currentProcess s' = currentProcess s ∧ ProcessQueue s' = ProcessQueue s.
Proof.
  induction k as [|k IH]; intros s s' H; cbn [for_loop] in H.
  - by injection H as <-.
  - apply bind_Ret in H as (s1 & H1 & H).
    apply IH in H as [-> ->]. by apply npp_tick_keeps in H1 as (-> & -> & _).
Qed.

(** C9.  In a round of the main loop of [npp], entered at clock [c]
    with [cur] selected, the clock is advanced [burst cur] times and
    [cur], completed at the clock so reached, is the one record the
    round adds to the result queue; no tick of the round changes which
    process is running, or completes another one.  Over a whole run the
    result queue therefore accounts for the clock back to back, from
    [0] to its final value: each process finishes exactly [burst] ticks
    after the one selected before it did. *)
Theorem npp_runs_in_one_block :
  (∀ c cur rq jq pq,
     is_int c → 0 <= burst cur →
     Z.of_nat (length rq + length jq + length pq + 1) <= INT_MAX →
     ∃ s', npp_body cur (mkSim c (Some cur) (mk rq) (mk jq) (mk pq)) = Ret s'
           ∧ CLOCK s' = int_add c (burst cur)
           ∧ nodes (ProcessQueue s') = pq ++ [complete cur (CLOCK s')])
  ∧ (∀ k s s',
       for_loop k npp_tick s = Ret s' →
       currentProcess s' = currentProcess s ∧ ProcessQueue s' = ProcessQueue s)
  ∧ (∀ fuel rq,
       counted rq → is_int (count rq) →
       Forall (λ p, 0 <= burst p) (nodes rq) →
       (length (nodes rq) <= fuel)%nat →
       ∃ s, npp_sim fuel rq init_list = Ret s
            ∧ currentProcess s = None
            ∧ back_to_back 0 (nodes (ProcessQueue s)) (CLOCK s)).
Proof.
  split; [|split].
  - intros c cur rq jq pq Hc Hb Hsize.
    set (a := mkAbs c (Some cur) rq jq pq).
    change (mkSim c (Some cur) (mk rq) (mk jq) (mk pq)) with (conc a).
    rewrite npp_body_conc by (done || (unfold size; cbn; lia)).
    eexists. split; [done|].
    destruct (npp_bodyA_clock cur a Hc Hb) as [H1 H2]. done.
  - apply for_loop_npp_tick_keeps.
  - intros fuel rq Hc Hi Hb Hfuel.
    destruct (npp_returns fuel rq Hc Hi Hfuel) as (a & Hs & Ha).
    exists (conc a). split; [done|].
    apply (loopA_invariant npp_bodyA in_blocks) in Ha as [(_ & Ha & _) Hcur].
    + done.
    + intros; by apply in_blocks_npp.
    + split; [by destruct (nodes rq)|]. split; [by destruct (nodes rq)|].
      destruct (nodes rq); [constructor|]. done.
Qed.

Lemma npp_runs_in_one_block_witness :
  let rq := import [(1, 0, 5, 2); (2, 1, 3, 1); (3, 2, 8, 3); (4, 20, 1, 0)]
                   init_list in
  counted rq ∧ is_int (count rq) ∧ Forall (λ p, 0 <= burst p) (nodes rq)
  ∧ ∃ s, npp_sim 4 rq init_list = Ret s
         ∧ currentProcess s = None
         ∧ back_to_back 0 (nodes (ProcessQueue s)) (CLOCK s).
Proof.
  intros rq.
  assert (Hb : Forall (λ p, 0 <= burst p) (nodes rq))
    by (repeat constructor; by vm_compute).
  split; [reflexivity|]. split; [by vm_compute|]. split; [exact Hb|].
  destruct npp_runs_in_one_block as (_ & _ & H).
  apply (H 4%nat rq); [reflexivity|by vm_compute|exact Hb|vm_compute; lia].
Defined.

(** *** RR: the preempted process goes in front of the new arrivals *)

Lemma wrap_eq a b : wrap a = wrap b → ∃ k, a - b = 4294967296 * k.
Proof.
  unfold wrap. intros H.
  pose proof (Z.div_mod (a + 2147483648) 4294967296).
  pose proof (Z.div_mod (b + 2147483648) 4294967296).
  exists ((a + 2147483648) / 4294967296 - (b + 2147483648) / 4294967296). lia.
Qed.

Lemma wrap_later c n :
  0 < n <= INT_MAX → wrap (c + n) ≠ wrap c.
Proof.
  intros Hn H. apply wrap_eq in H as [k Hk]. unfold INT_MAX in *. lia.
Qed.

Lemma arrived_pending_ne c c1 jq :
  c ≠ c1 → arrived c (pending c1 jq) = arrived c jq.
Proof.
  intros Hne. unfold arrived, pending. induction jq as [|p jq IH]; [done|].
  rewrite !filter_cons.
  repeat (case_decide; rewrite ?filter_cons); try done; try congruence.
Qed.

(** A slice that is not cut short by [break] runs every one of its
    ticks, and lets no process in that arrives at its last tick. *)
Lemma rr_sliceA_full n : ∀ i q cur c rq jq cur' c' rq' jq',
  rr_sliceA n i q cur c rq jq = (cur', c', rq', jq') →
  leftover cur' ≠ 0 →
  0 <= i → i + Z.of_nat n = q → q <= INT_MAX → is_int c →
  c' = wrap (c + Z.of_nat n) ∧ arrived c' jq' = arrived c' jq.
Proof.
  induction n as [|n IH]; intros i q cur c rq jq cur' c' rq' jq' H Hne Hi Hq Hmax Hc;
    cbn [rr_sliceA] in H.
  - inversion H; subst. rewrite Z.add_0_r. by rewrite wrap_id.
  - assert (Hq1 : int_sub q 1 = q - 1).
    { apply wrap_id. unfold is_int, INT_MIN, INT_MAX in *. lia. }
    assert (Hi1 : int_add i 1 = i + 1).
    { apply wrap_id. unfold is_int, INT_MIN, INT_MAX in *. lia. }
    rewrite Hq1, Hi1 in H.
    set (cur1 := set_leftover cur (int_sub (leftover cur) 1)) in *.
    destruct (Z.ltb_spec i (q - 1)) as [Hlt|Hge];
      (destruct (Z.eqb_spec (leftover cur1) 0) as [E|E];
       [by inversion H; subst|]);
      apply IH in H as [-> H2]; try done; try lia; try apply wrap_is_int;
      unfold int_add in *; rewrite wrap_add_l in *;
      replace (c + 1 + Z.of_nat n) with (c + Z.of_nat (S n)) in * by lia;
      (split; [done|]); [|done].
    rewrite H2. apply arrived_pending_ne.
    replace (c + Z.of_nat (S n)) with (c + 1 + Z.of_nat n) by lia.
    apply wrap_later. lia.
Qed.

(** C8.  When a slice of [rr] ends with the running process
    unfinished, the process is enqueued on the ready queue before
    [arrivalChecker] is called for the clock the slice ended at, and no
    call for that clock was made during the slice.  So the ready queue
    then holds what it held, the preempted process, and right behind it
    the processes of the pool that arrive at this very tick. *)
Theorem rr_preempted_goes_before_arrivals
    (c iQuantum : Z) (cp : option ProcessNode) (cur cur' : ProcessNode)
    (rq jq : list ProcessNode) (pq : List) (s1 : Sim) :
  is_int c → 0 < iQuantum <= INT_MAX →
  Z.of_nat (length rq + length jq + 1) <= INT_MAX →
  rr_slice (Z.to_nat iQuantum) 0 iQuantum cur (mkSim c cp (mk rq) (mk jq) pq)
  = Ret (cur', s1) →
  leftover cur' ≠ 0 →
  ∃ s2, rr_requeue cur' s1 = Ret s2
        ∧ rr_body iQuantum cur (mkSim c cp (mk rq) (mk jq) pq) = Ret (pop_next s2)
        ∧ CLOCK s1 = int_add c iQuantum
        ∧ CLOCK s2 = CLOCK s1
        ∧ nodes (ReadyQueue s2)
          = nodes (ReadyQueue s1) ++ cur' :: arrived (CLOCK s1) jq
        ∧ nodes (JobQueue s2) = pending (CLOCK s1) (nodes (JobQueue s1)).
Proof.
  intros Hc Hq Hsize Hslice Hne.
  unfold rr_body. rewrite Hslice. cbn [mbind res_bind].
  destruct (Z.eqb_spec (leftover cur') 0) as [E|_]; [done|].
  rewrite rr_slice_mk in Hslice by lia.
  destruct (rr_sliceA _ _ _ _ _ _ _) as [[[cur1 c1] rq1] jq1] eqn:E.
  injection Hslice as -> <-.
  pose proof (rr_sliceA_length _ _ _ _ _ _ _ _ _ _ _ E) as Hlen.
  apply rr_sliceA_full in E as [Hc1 Harr]; [|done|done|lia|lia|done].
  rewrite Z2Nat.id in Hc1 by lia.
  unfold rr_requeue. cbn [CLOCK ReadyQueue JobQueue ProcessQueue currentProcess].
  rewrite enqueue_mk by (unfold INT_MAX in *; lia).
  rewrite arrivalChecker_mk by (rewrite length_app; cbn [length]; lia).
  cbn [mbind res_bind]. eexists. split; [done|]. split; [done|].
  cbn [CLOCK ReadyQueue JobQueue nodes mk]. split; [done|]. split; [done|].
  split; [|done]. by rewrite Harr, <- app_assoc.
Qed.

Lemma rr_preempted_goes_before_arrivals_witness :
  let jq := [node_of (2, 2, 3, 0); node_of (3, 4, 1, 0); node_of (4, 4, 2, 0);
             node_of (5, 9, 1, 0)] in
  let cur := node_of (1, 0, 6, 0) in
  ∃ cur' s1 s2,
    rr_slice 4 0 4 cur (mkSim 0 (Some cur) (mk []) (mk jq) init_list)
    = Ret (cur', s1)
    ∧ rr_requeue cur' s1 = Ret s2
    ∧ map pid (nodes (ReadyQueue s2)) = [2; 1; 3; 4].
Proof.
  intros jq cur.
  destruct (rr_preempted_goes_before_arrivals 0 4 (Some cur) cur
              (set_leftover cur 2)
              [] jq init_list
              (mkSim 4 (Some cur) (mk [node_of (2, 2, 3, 0)])
                     (mk [node_of (3, 4, 1, 0); node_of (4, 4, 2, 0);
                          node_of (5, 9, 1, 0)]) init_list))
    as (s2 & H1 & _ & _ & _ & H2 & _);
    [by vm_compute|by vm_compute|by vm_compute|by vm_compute|by vm_compute|].
  eexists (set_leftover cur 2), _, s2.
  split; [by vm_compute|]. split; [exact H1|].
  rewrite H2. by vm_compute.
Defined.

(* ------------------------------------------------------------------ *)
(** ** The iteration bounds inside the model are never used up *)
(* ------------------------------------------------------------------ *)

Lemma swapWithNext_length l i l' : swapWithNext l i = Ret l' → length l' = length l.
Proof.
  unfold swapWithNext. intros H.
  apply bind_Ret in H as (a & _ & H). apply bind_Ret in H as (b & _ & [= <-]).
  by rewrite !length_insert.
Qed.

Lemma sift_length i : ∀ l l', sift l i = Ret l' → length l' = length l.
Proof.
  induction i as [|i IH]; intros l l' H; cbn [sift] in H;
    apply bind_Ret in H as (a & _ & H); apply bind_Ret in H as (b & _ & H);
    (destruct (priority a >? priority b); [|by injection H as <-]);
    apply bind_Ret in H as (l1 & H1 & H); apply swapWithNext_length in H1.
  - injection H as <-. done.
  - apply IH in H. congruence.
Qed.

Lemma swapWithNext_fuel l i : swapWithNext l i ≠ OutOfFuel.
Proof.
  unfold swapWithNext.
  destruct (l !! i); cbn [deref mbind res_bind]; [|done].
  by destruct (l !! S i).
Qed.

Lemma sift_fuel i : ∀ l, sift l i ≠ OutOfFuel.
Proof.
  induction i as [|i IH]; intros l; cbn [sift].
  - destruct (l !! 0%nat) as [a|]; cbn [deref mbind res_bind]; [|done].
    destruct (l !! 1%nat) as [b|]; cbn [deref mbind res_bind]; [|done].
    destruct (priority a >? priority b); [|done].
    pose proof (swapWithNext_fuel l 0) as Hs.
    destruct (swapWithNext l 0); cbn [mbind res_bind]; [done|done|by destruct Hs].
  - destruct (l !! S i) as [a|]; cbn [deref mbind res_bind]; [|done].
    destruct (l !! S (S i)) as [b|]; cbn [deref mbind res_bind]; [|done].
    destruct (priority a >? priority b); [|done].
    pose proof (swapWithNext_fuel l (S i)) as Hs.
    destruct (swapWithNext l (S i)); cbn [mbind res_bind];
      [apply IH|done|by destruct Hs].
Qed.

Lemma insSort_loop_fuel fuel : ∀ l ptr i,
  (1 <= fuel)%nat → (length l <= fuel + ptr)%nat →
  insSort_loop fuel l ptr i ≠ OutOfFuel.
Proof.
  induction fuel as [|fuel IH]; intros l ptr i Hf Hl; [lia|].
  cbn [insSort_loop].
  destruct (l !! S ptr) as [p|]; cbn [deref mbind res_bind]; [|done].
  destruct (l !! i) as [n|]; cbn [deref mbind res_bind]; [|done].
  assert (Hnext : ∀ l1 i1, length l1 = length l →
    match l1 !! S (S ptr) with
    | Some _ => insSort_loop fuel l1 (S ptr) i1
    | None => Ret l1
    end ≠ OutOfFuel).
  { intros l1 i1 Hl1. destruct (l1 !! S (S ptr)) eqn:E; [|done].
    apply lookup_lt_Some in E. apply IH; lia. }
  destruct (priority p >=? priority n); cbn [mbind res_bind].
  - by apply Hnext.
  - pose proof (sift_fuel i l) as Hs.
    destruct (sift l i) as [l1| |] eqn:E; cbn [mbind res_bind];
      [|done|by destruct Hs].
    apply sift_length in E. by apply Hnext.
Qed.

Lemma insSortPriority_fuel q : insSortPriority q ≠ OutOfFuel.
Proof.
  unfold insSortPriority. destruct (count q =? 1); [done|].
  pose proof (insSort_loop_fuel (S (length (nodes q))) (nodes q) 0 0) as H.
  destruct (insSort_loop _ _ _ _); cbn [mbind res_bind]; [done|done|].
  exfalso. apply H; [lia|lia|done].
Qed.

Lemma fill_JobQueue_fuel n : ∀ rq jq,
  is_int (count rq) → n = Z.to_nat (count rq) →
  fill_JobQueue n rq jq ≠ OutOfFuel.
Proof.
  induction n as [|n IH]; intros rq jq Hi Hn.
  - cbn [fill_JobQueue]. destruct (Z.gtb_spec (count rq) 0); [lia|done].
  - cbn [fill_JobQueue]. destruct (Z.gtb_spec (count rq) 0); [|done].
    assert (Hd : int_sub (count rq) 1 = count rq - 1).
    { apply wrap_id. unfold is_int, INT_MIN, INT_MAX in *. lia. }
    unfold dequeue. rewrite Hd.
    destruct (nodes rq) as [|p [|p' l]]; cbn [deref mbind res_bind]; [done|..];
      apply IH; cbn [count]; unfold is_int, INT_MIN, INT_MAX in *; lia.
Qed.

(* ------------------------------------------------------------------ *)
(** ** The scenarios *)
(* ------------------------------------------------------------------ *)

(** C1.  [npp] on scenario A: process 1 runs the ticks 1 to 5 and is
    recorded with finish 5 and waiting 0.  The processes 2 and 3, put
    in the job queue with arrival time 0, are compared with the clock
    values 1 to 5 only: they are still in the job queue when the ready
    queue is found empty and the main loop ends, and the result queue
    holds process 1 alone. *)
Theorem npp_scenario_A (fuel : nat) :
  npp_sim (S fuel) (import scenario_A init_list) init_list
  = Ret (mkSim 5 None (mkList [] (-1))
               (mk [node_of (2, 0, 3, 1); node_of (3, 0, 8, 3)])
               (mk [complete (node_of (1, 0, 5, 2)) 5]))
  ∧ (pq ← processQueue (S fuel) (import scenario_A init_list) "NPP" 0;
     print_loop (Z.to_nat (count pq)) pq)
    = Ret [(1, 0, 5, 0)].
Proof. destruct fuel; by vm_compute. Qed.

(** C2.  Processes that share arrival time 0 with the first one never
    reach the result queue.  Under [rr] with quantum 4, scenario B ends
    with process 1 alone in the result queue and process 2 in the job
    queue; under [npp] the same happens to process 2 of a two-line
    file. *)
Theorem result_queue_misses_processes (fuel : nat) :
  rr_sim (S (S fuel)) (import scenario_B init_list) init_list 4
  = Ret (mkSim 5 None (mkList [] (-1))
               (mk [node_of (2, 0, 3, 0)])
               (mk [complete (set_leftover (node_of (1, 0, 5, 0)) 0) 5]))
  ∧ (pq ← processQueue (S (S fuel)) (import scenario_B init_list) "RR" 4;
     print_loop (Z.to_nat (count pq)) pq)
    = Ret [(1, 0, 5, 0)]
  ∧ (pq ← processQueue (S fuel) (import [(1, 0, 2, 0); (2, 0, 2, 0)] init_list)
                       "NPP" 0;
     print_loop (Z.to_nat (count pq)) pq)
    = Ret [(1, 0, 2, 0)].
Proof. destruct fuel; by vm_compute. Qed.

(** C3.  [rr] with quantum 4 on scenario C: process 1 completes at
    clock 2, the ready queue is empty at the [dequeue] that follows, and
    the main loop ends there, at clock 2.  Process 2, which arrives at
    5, stays in the job queue; the clock is not advanced to its arrival,
    and the result queue holds process 1 alone. *)
Theorem rr_scenario_C (fuel : nat) :
  rr_sim (S fuel) (import scenario_C init_list) init_list 4
  = Ret (mkSim 2 None (mkList [] (-1))
               (mk [node_of (2, 5, 2, 0)])
               (mk [complete (set_leftover (node_of (1, 0, 2, 0)) 0) 2]))
  ∧ (pq ← processQueue (S fuel) (import scenario_C init_list) "RR" 4;
     print_loop (Z.to_nat (count pq)) pq)
    = Ret [(1, 0, 2, 0)].
Proof. destruct fuel; by vm_compute. Qed.

(** With a quantum that is not positive a slice has no tick: a process
    with a burst time other than 0 is put back at the tail of the ready
    queue as it is, and the clock stands still. *)
Lemma rr_body_no_quantum q p :
  q <= 0 → leftover p ≠ 0 →
  rr_body q p (mkSim 0 (Some p) (mk []) (mk []) (mk []))
  = Ret (mkSim 0 (Some p) (mk []) (mk []) (mk [])).
Proof.
  intros Hq Hp. unfold rr_body.
  replace (Z.to_nat q) with O by lia. cbn [rr_slice mbind res_bind].
  destruct (Z.eqb_spec (leftover p) 0); [done|]. by vm_compute.
Qed.

Lemma rr_loop_no_quantum q p fuel :
  q <= 0 → leftover p ≠ 0 →
  rr_loop fuel q (mkSim 0 (Some p) (mk []) (mk []) (mk [])) = OutOfFuel.
Proof.
  intros Hq Hp. induction fuel as [|fuel IH]; [done|].
  cbn [rr_loop currentProcess]. by rewrite rr_body_no_quantum.
Qed.

(** C4.  [main] turns down [RR] without a quantum, and nothing else
    about the quantum: for [./sched in out RR q] with [atoi q <= 0] the
    command line is accepted and [rr] is started with that quantum.  On
    a file with the one line [1 0 1 0] the main loop of [rr] then goes
    round without end, whatever bound it is given. *)
Theorem nonpositive_quantum_is_not_rejected
    (atoi : string → Z) (vars : descriptor) (q : string) :
  atoi q <= 0 →
  handle_args atoi ["./sched"; "in.txt"; "out.txt"; "RR"] = Exit 1
  ∧ handle_args atoi ["./sched"; "in.txt"; "out.txt"; "RR"; q]
    = Invoke "RR" (atoi q) 0
  ∧ ∀ fuel, main atoi vars fuel ["./sched"; "in.txt"; "out.txt"; "RR"; q]
                 [(1, 0, 1, 0)]
            = OutOfFuel.
Proof.
  intros Hq. split; [done|]. split; [done|]. intros fuel.
  unfold main.
  change (handle_args atoi ["./sched"; "in.txt"; "out.txt"; "RR"; q])
    with (Invoke "RR" (atoi q) 0).
  cbn [import]. unfold processQueue, rr, rr_sim.
  cbn [String.eqb Ascii.eqb Bool.eqb].
  change (sched_init _ init_list)
    with (Ret (mkSim 0 (Some (node_of (1, 0, 1, 0))) (mk []) (mk []) (mk []))).
  cbn [mbind res_bind]. by rewrite rr_loop_no_quantum.
Qed.

Lemma nonpositive_quantum_is_not_rejected_witness :
  let atoi := λ s : string, if String.eqb s "0" then 0 else 1 in
  atoi "0" <= 0
  ∧ handle_args atoi ["./sched"; "in.txt"; "out.txt"; "RR"; "0"] = Invoke "RR" 0 0
  ∧ main atoi (0, 0, 0, 0) 1000 ["./sched"; "in.txt"; "out.txt"; "RR"; "0"]
         [(1, 0, 1, 0)]
    = OutOfFuel.
Proof.
  intros atoi.
  destruct (nonpositive_quantum_is_not_rejected atoi (0, 0, 0, 0) "0")
    as (_ & H1 & H2);
    [by vm_compute|].
  split; [by vm_compute|]. split; [exact H1|apply H2].
Defined.

(* ================================================================== *)
(** * Further properties of the code *)
(* ================================================================== *)

(* ------------------------------------------------------------------ *)
(** ** The queue as a FIFO *)
(* ------------------------------------------------------------------ *)

(** X1.  On a queue whose [count] is right and that has room for one
    more node, [enqueue] keeps [count] right, and a [dequeue] that
    follows hands out the old head: the two commute on a non-empty
    queue, and undo each other on an empty one. *)
Theorem enqueue_then_dequeue (q : List) (p : ProcessNode) :
  counted q → Z.of_nat (length (nodes q)) < INT_MAX →
  counted (enqueue q p)
  ∧ dequeue (enqueue q p)
    = match nodes q with
      | [] => (Some p, q)
      | h :: _ => (Some h, enqueue (dequeue q).2 p)
      end.
Proof.
  destruct q as [l c]. unfold counted. cbn [nodes count]. intros -> Hlen.
  change (mkList l (Z.of_nat (length l))) with (mk l).
  rewrite enqueue_mk by done. split; [apply counted_mk|].
  destruct l as [|h t]; cbn [app].
  - by rewrite dequeue_mk_cons by (cbn; unfold INT_MAX; lia).
  - cbn [length] in Hlen.
    rewrite !dequeue_mk_cons
      by (cbn [length]; rewrite ?length_app; cbn [length]; unfold INT_MAX in *; lia).
    cbn [snd]. by rewrite enqueue_mk by (unfold INT_MAX in *; lia).
Qed.

Lemma enqueue_then_dequeue_witness :
  let q := mk [init_process 1 0 5 2; init_process 2 0 3 1] in
  let p := init_process 3 0 8 3 in
  counted q ∧ Z.of_nat (length (nodes q)) < INT_MAX
  ∧ dequeue (enqueue q p)
    = (Some (init_process 1 0 5 2), mk [init_process 2 0 3 1; p]).
Proof.
  intros q p. split; [reflexivity|]. split; [by vm_compute|].
  destruct (enqueue_then_dequeue q p) as [_ H]; [reflexivity|by vm_compute|].
  rewrite H. by vm_compute.
Defined.

(* ------------------------------------------------------------------ *)
(** ** Reading the input file and writing the results file *)
(* ------------------------------------------------------------------ *)

(** X2.  The import loop that scans to the end of the file makes one
    node per line, in file order, with [leftover] set to the burst time
    and [finish] and [waiting] at [0]; the lines can be read back from
    the nodes, and [count] is the number of lines. *)
Theorem import_builds_ready_queue (file : list descriptor) :
  Z.of_nat (length file) <= INT_MAX →
  import file init_list = mk (map node_of file)
  ∧ map descriptor_of (nodes (import file init_list)) = file
  ∧ Forall (λ p, leftover p = burst p ∧ finish p = 0 ∧ waiting p = 0)
           (nodes (import file init_list)).
Proof.
  intros H. rewrite import_init by done. cbn [mk nodes].
  split; [done|]. split.
  - clear H. induction file as [|[[[a b] c] d] file IH]; [done|].
    cbn [map]. by rewrite IH.
  - apply Forall_forall. intros p Hp.
    apply list_elem_of_fmap in Hp as ([[[a b] c] d] & -> & _). done.
Qed.

Lemma import_builds_ready_queue_witness :
  Z.of_nat (length scenario_A) <= INT_MAX
  ∧ map descriptor_of (nodes (import scenario_A init_list)) = scenario_A
  ∧ count (import scenario_A init_list) = 3.
Proof.
  assert (H : Z.of_nat (length scenario_A) <= INT_MAX) by (by vm_compute).
  destruct (import_builds_ready_queue scenario_A H) as (H1 & H2 & _).
  split; [done|]. split; [done|]. by rewrite H1.
Defined.

Lemma import_limit_mk n : ∀ file vars l,
  Z.of_nat (length l + n) <= INT_MAX →
  import_limit n file vars (mk l)
  = mk (l ++ map node_of (take n file
                          ++ replicate (n - length file) (default vars (last file)))).
Proof.
  induction n as [|n IH]; intros file vars l H.
  - cbn. by rewrite app_nil_r.
  - cbn [import_limit]. destruct file as [|d file].
    + rewrite enqueue_mk by (unfold INT_MAX in *; lia).
      rewrite IH by (rewrite length_app; cbn [length]; lia).
      cbn. rewrite <- app_assoc. cbn. by rewrite take_nil, Nat.sub_0_r.
    + rewrite enqueue_mk by (unfold INT_MAX in *; lia).
      rewrite IH by (rewrite length_app; cbn [length]; lia).
      rewrite <- app_assoc. cbn [take length Nat.sub app map].
      assert (Hlast : default vars (last (d :: file)) = default d (last file)).
      { destruct file as [|d' file]; [done|]. rewrite last_cons.
        by destruct (last (d' :: file)). }
      by rewrite Hlast.
Qed.

(** X3.  The import loop for a positive [iLimit] does not look at what
    [fscanf] returns.  It makes [iLimit] nodes: one per line while
    there are lines, and after the end of the file one more copy of the
    last line read per remaining round (of the indeterminate start
    values when the file is empty). *)
Theorem import_limit_repeats_last_line
    (n : nat) (file : list descriptor) (vars : descriptor) :
  Z.of_nat n <= INT_MAX →
  import_limit n file vars init_list
  = mk (map node_of (take n file
                     ++ replicate (n - length file) (default vars (last file)))).
Proof.
  intros H. change init_list with (mk []).
  by rewrite import_limit_mk by (cbn [length]; lia).
Qed.

Lemma import_limit_repeats_last_line_witness :
  map pid (nodes (import_limit 2 scenario_A (0, 0, 0, 0) init_list)) = [1; 2]
  ∧ map pid (nodes (import_limit 5 scenario_A (0, 0, 0, 0) init_list))
    = [1; 2; 3; 3; 3].
Proof.
  rewrite !import_limit_repeats_last_line by (by vm_compute). by vm_compute.
Defined.

Lemma print_loop_take (n : nat) (pq : List) :
  print_loop n pq
  = if decide (n <= length (nodes pq))%nat
    then Ret (map line_of (take n (nodes pq)))
    else NullDeref.
Proof.
  revert pq. induction n as [|n IH]; intros pq.
  - cbn. by rewrite take_0.
  - cbn [print_loop]. destruct pq as [l c]. destruct l as [|p l]; [done|].
    rewrite (dequeue_cons _ p l) by done.
    cbn [deref mbind res_bind]. rewrite IH. cbn [nodes length count].
    destruct (decide (n <= length l)%nat), (decide (S n <= S (length l))%nat);
      try lia; done.
Qed.

(** X4.  The printing loop depends on the chain and on the number of
    rounds only: with no more rounds than nodes it writes the lines of
    the first nodes, in queue order, and with as many rounds as nodes
    the line of every node; with more it reads through the [NULL] that
    [dequeue] returns. *)
Theorem print_loop_lines (n : nat) (pq : List) :
  print_loop n pq
  = (if decide (n <= length (nodes pq))%nat
     then Ret (map line_of (take n (nodes pq)))
     else NullDeref)
  ∧ print_loop (length (nodes pq)) pq = Ret (map line_of (nodes pq)).
Proof.
  split; [apply print_loop_take|].
  rewrite print_loop_take. destruct (decide _); [|lia]. by rewrite firstn_all.
Qed.

(* ------------------------------------------------------------------ *)
(** ** The command line *)
(* ------------------------------------------------------------------ *)

(** X5.  [main] returns before it opens a file in exactly two
    situations, both with code [1]: fewer than four or more than six
    arguments, and [RR] with nothing after it.  Otherwise the algorithm
    is [argv[3]] as it stands, and a quantum other than [0] can only
    come with [RR]. *)
Theorem handle_args_exits (atoi : string → Z) (argv : list string) :
  (handle_args atoi argv = Exit 1
   ↔ (length argv < 4)%nat ∨ (6 < length argv)%nat
     ∨ (length argv = 4%nat ∧ argv !! 3%nat = Some "RR"))
  ∧ (∀ code, handle_args atoi argv = Exit code → code = 1)
  ∧ (∀ cAlgorithm iQuantum iLimit,
       handle_args atoi argv = Invoke cAlgorithm iQuantum iLimit →
       argv !! 3%nat = Some cAlgorithm
       ∧ (iQuantum ≠ 0 → cAlgorithm = "RR")).
Proof.
  unfold handle_args.
  destruct (Z.ltb_spec (Z.of_nat (length argv)) 4) as [H4|H4];
    [cbn [orb]; split; [split; [intros _; left; lia|done]|];
     split; [by intros ? [= <-]|done]|].
  destruct (Z.gtb_spec (Z.of_nat (length argv)) 6) as [H6|H6];
    [cbn [orb]; split; [split; [intros _; right; left; lia|done]|];
     split; [by intros ? [= <-]|done]|].
  cbn [orb].
  destruct argv as [|a0 [|a1 [|a2 [|a3 [|a4 [|a5 [|a6 rest]]]]]]];
    cbn [length] in H4, H6; try lia; clear H4 H6.
  all: unfold arg; cbn [lookup list_lookup default length].
  all: repeat match goal with
       | |- context [Z.of_nat ?n =? ?m] =>
         let b := eval vm_compute in (Z.of_nat n =? m) in
         change (Z.of_nat n =? m) with b
       end.
  all: unfold id; rewrite ?andb_true_r, ?andb_false_r.
  all: destruct (String.eqb_spec a3 "NPP") as [En|Hn];
       destruct (String.eqb_spec a3 "RR") as [Er|Hr];
       try (subst; discriminate).
  all: split; [split; [intros; simplify_eq; auto|
                       intros [?|[?|[? ?]]]; simplify_eq; try lia; done]|].
  all: split; [intros; by simplify_eq|].
  all: intros alg q lim ?; simplify_eq; done.
Qed.



(* ------------------------------------------------------------------ *)
(** ** From the result queue to the results file *)
(* ------------------------------------------------------------------ *)







(* ------------------------------------------------------------------ *)
(** ** No process is lost, copied or invented *)
(* ------------------------------------------------------------------ *)

Lemma conserved_initA {B} (f : ProcessNode → B) l : conserved f l (initA l).
Proof. by destruct l. Qed.

Lemma conserved_popA {B} (f : ProcessNode → B) l c rq jq pq :
  map f (pq ++ rq ++ jq) ≡ₚ map f l → conserved f l (popA c rq jq pq).
Proof.
  intros H. split; [|by destruct rq].
  by rewrite a_done_popA, live_popA.
Qed.

Lemma conserved_npp {B} (f : ProcessNode → B) l cur a :
  (∀ p c, f (complete p c) = f p) →
  a_cur a = Some cur → conserved f l a → conserved f l (npp_bodyA cur a).
Proof.
  intros Hf Hcur [H _]. unfold npp_bodyA.
  destruct (npp_ticks _ _ _ _) as [[c rq] jq] eqn:E.
  apply npp_ticks_perm in E. apply conserved_popA.
  rewrite <- H. unfold live. rewrite Hcur.
  rewrite isort_perm, admit_perm.
  apply (Permutation_map f) in E. rewrite !map_app in *. cbn [map].
  by rewrite Hf, E, <- app_assoc.
Qed.

Lemma rr_sliceA_fields n : ∀ i q cur c rq jq cur' c' rq' jq',
  rr_sliceA n i q cur c rq jq = (cur', c', rq', jq') →
  cur' = set_leftover cur (leftover cur').
Proof.
  induction n as [|n IH]; intros i q cur c rq jq cur' c' rq' jq' H;
    cbn [rr_sliceA] in H.
  - inversion H; subst. by destruct cur'.
  - destruct (i <? int_sub q 1);
      destruct (leftover (set_leftover cur (int_sub (leftover cur) 1)) =? 0);
      first [ apply IH in H; rewrite H; by destruct cur
            | inversion H; subst; by destruct cur ].
Qed.

Lemma conserved_rr {B} (f : ProcessNode → B) l q cur a :
  (∀ p c, f (complete p c) = f p) → (∀ p v, f (set_leftover p v) = f p) →
  a_cur a = Some cur → conserved f l a → conserved f l (rr_bodyA q cur a).
Proof.
  intros Hf Hl Hcur [H _]. unfold rr_bodyA.
  destruct (rr_sliceA _ _ _ _ _ _ _) as [[[cur' c] rq] jq] eqn:E.
  pose proof (rr_sliceA_perm _ _ _ _ _ _ _ _ _ _ _ E) as Hp.
  apply rr_sliceA_fields in E.
  assert (Hcur' : f cur' = f cur) by (rewrite E; apply Hl).
  destruct (leftover cur' =? 0); apply conserved_popA; rewrite <- H;
    unfold live; rewrite Hcur, admit_perm.
  - apply (Permutation_map f) in Hp. rewrite !map_app in *. cbn [map].
    by rewrite Hf, Hcur', Hp, <- app_assoc.
  - apply (Permutation_map f) in Hp. rewrite <- !app_assoc, !map_app in *.
    cbn [map app]. rewrite Hcur', <- Permutation_middle. by rewrite Hp.
Qed.

Lemma conserved_final {B} (f : ProcessNode → B) l a :
  conserved f l a → a_cur a = None →
  map f (nodes (ProcessQueue (conc a)) ++ nodes (JobQueue (conc a))) ≡ₚ map f l.
Proof.
  intros [H Hr] Hcur. rewrite <- H. unfold live. rewrite Hcur, (Hr Hcur). done.
Qed.

(** X9.  When [npp] or [rr] returns, the result queue and the job
    queue together hold exactly the imported processes, each once:
    under [npp] with every field but [finish] and [waiting] as
    imported, under [rr] with pid, arrival, burst and priority as
    imported.  So the result queue of [processQueue] never has a
    process that was not imported, nor one more often than it was
    imported; with distinct pids in the input no pid is printed
    twice. *)
Theorem schedulers_conserve_processes :
  (∀ fuel rq s, counted rq → is_int (count rq) →
     npp_sim fuel rq init_list = Ret s →
     map untimed_of (nodes (ProcessQueue s) ++ nodes (JobQueue s))
     ≡ₚ map untimed_of (nodes rq))
  ∧ (∀ fuel iQuantum rq s, counted rq → is_int (count rq) →
       rr_sim fuel rq init_list iQuantum = Ret s →
       map descriptor_of (nodes (ProcessQueue s) ++ nodes (JobQueue s))
       ≡ₚ map descriptor_of (nodes rq))
  ∧ (∀ fuel rq cAlgorithm iQuantum pq, counted rq → is_int (count rq) →
       processQueue fuel rq cAlgorithm iQuantum = Ret pq →
       map descriptor_of (nodes pq) ⊆+ map descriptor_of (nodes rq)
       ∧ (NoDup (map pid (nodes rq)) → NoDup (map pid (nodes pq)))).
Proof.
  assert (Hnpp : ∀ {B} (f : ProcessNode → B) fuel rq s,
    (∀ p c, f (complete p c) = f p) →
    counted rq → is_int (count rq) →
    npp_sim fuel rq init_list = Ret s →
    map f (nodes (ProcessQueue s) ++ nodes (JobQueue s)) ≡ₚ map f (nodes rq)).
  { intros B f fuel rq s Hf Hc Hi H.
    destruct (counted_is_mk rq Hc Hi) as [Hmk Hlen]. rewrite Hmk in H.
    apply npp_sim_Ret in H as (a & Ha & ->); [|done].
    apply (loopA_invariant npp_bodyA (conserved f (nodes rq))) in Ha
      as [Ha Hcur]; [by apply conserved_final| |apply conserved_initA].
    intros; by apply conserved_npp. }
  assert (Hrr : ∀ fuel q rq s,
    counted rq → is_int (count rq) →
    rr_sim fuel rq init_list q = Ret s →
    map descriptor_of (nodes (ProcessQueue s) ++ nodes (JobQueue s))
    ≡ₚ map descriptor_of (nodes rq)).
  { intros fuel q rq s Hc Hi H.
    destruct (counted_is_mk rq Hc Hi) as [Hmk Hlen]. rewrite Hmk in H.
    apply rr_sim_Ret in H as (a & Ha & ->); [|done].
    apply (loopA_invariant (rr_bodyA q) (conserved descriptor_of (nodes rq)))
      in Ha as [Ha Hcur]; [by apply conserved_final| |apply conserved_initA].
    intros; by apply conserved_rr. }
  split; [intros; by eapply Hnpp|]. split; [done|].
  intros fuel rq alg q pq Hc Hi H.
  assert (Hsub : map descriptor_of (nodes pq) ⊆+ map descriptor_of (nodes rq)).
  { unfold processQueue in H.
    destruct (String.eqb alg "NPP"); [|destruct (String.eqb alg "RR")].
    - apply bind_Ret in H as ([rq' pq'] & H & [= <-]).
      unfold npp in H. apply bind_Ret in H as (s & Hs & [= _ <-]).
      rewrite <- (Hnpp _ descriptor_of fuel rq s) by done.
      rewrite map_app. by apply submseteq_inserts_r.
    - apply bind_Ret in H as ([rq' pq'] & H & [= <-]).
      unfold rr in H. apply bind_Ret in H as (s & Hs & [= _ <-]).
      rewrite <- (Hrr fuel q rq s) by done.
      rewrite map_app. by apply submseteq_inserts_r.
    - injection H as <-. apply submseteq_nil_l. }
  split; [done|]. intros Hnd.
  assert (Hpid : ∀ l, map pid l = map (λ d : descriptor, d.1.1.1) (map descriptor_of l)).
  { intros l. rewrite map_map. done. }
  rewrite Hpid in *.
  apply (fmap_submseteq (λ d : descriptor, d.1.1.1)) in Hsub.
  apply submseteq_Permutation in Hsub as [k Hk].
  change (list_fmap _ _ ?f ?l) with (map f l) in Hk.
  rewrite Hk in Hnd. by apply NoDup_app in Hnd as [Hnd _].
Qed.

Lemma schedulers_conserve_processes_witness :
  let rq := import scenario_C init_list in
  ∃ s, rr_sim 5 rq init_list 4 = Ret s
       ∧ map pid (nodes (ProcessQueue s)) = [1]
       ∧ map pid (nodes (JobQueue s)) = [2]
       ∧ map descriptor_of (nodes (ProcessQueue s) ++ nodes (JobQueue s))
         ≡ₚ map descriptor_of (nodes rq).
Proof.
  intros rq. destruct schedulers_conserve_processes as (_ & H & _).
  eexists. split; [by vm_compute|]. split; [done|]. split; [done|].
  apply (H 5%nat 4 rq); [reflexivity|by vm_compute|by vm_compute].
Defined.

(* ------------------------------------------------------------------ *)
(** ** Round robin: slices and leftover time *)
(* ------------------------------------------------------------------ *)

Lemma rr_sliceA_ticks n : ∀ i q cur c rq jq cur' c' rq' jq',
  runnable cur → is_int c →
  rr_sliceA n i q cur c rq jq = (cur', c', rq', jq') →
  c' = wrap (c + Z.min (Z.of_nat n) (leftover cur))
  ∧ leftover cur' = leftover cur - Z.min (Z.of_nat n) (leftover cur).
Proof.
  unfold runnable.
  induction n as [|n IH]; intros i q cur c rq jq cur' c' rq' jq' Hcur Hc H;
    cbn [rr_sliceA] in H.
  - inversion H; subst. replace (Z.min (Z.of_nat 0) (leftover cur')) with 0 by lia.
    rewrite Z.add_0_r, wrap_id by done. lia.
  - assert (Hdec : int_sub (leftover cur) 1 = leftover cur - 1).
    { apply wrap_id. unfold is_int, INT_MIN, INT_MAX in *. lia. }
    rewrite Hdec in H.
    set (cur1 := set_leftover cur (leftover cur - 1)) in *.
    assert (Hl1 : leftover cur1 = leftover cur - 1) by done.
    assert (Hr : ∀ rq1 jq1,
      (if leftover cur1 =? 0 then (cur1, int_add c 1, rq1, jq1)
       else rr_sliceA n (int_add i 1) q cur1 (int_add c 1) rq1 jq1)
      = (cur', c', rq', jq') →
      c' = wrap (c + Z.min (Z.of_nat (S n)) (leftover cur))
      ∧ leftover cur' = leftover cur - Z.min (Z.of_nat (S n)) (leftover cur)).
    { intros rq1 jq1 H1. destruct (Z.eqb_spec (leftover cur1) 0) as [E|E].
      - inversion H1; subst cur' c'.
        replace (Z.min (Z.of_nat (S n)) (leftover cur)) with 1 by lia.
        split; [done|lia].
      - apply IH in H1 as [-> ->]; [|lia|apply wrap_is_int].
        unfold int_add. rewrite wrap_add_l, Hl1.
        replace (Z.min (Z.of_nat (S n)) (leftover cur))
          with (1 + Z.min (Z.of_nat n) (leftover cur - 1)) by lia.
        split; [f_equal; lia|lia]. }
    destruct (i <? int_sub q 1); eapply Hr, H.
Qed.

(** X10.  A slice of [rr] given to a process with time left runs
    [min(iQuantum, leftover)] ticks: the clock is advanced that many
    times, [leftover] goes down by as much, and nothing else in the
    process's record or in the result queue changes. *)
Theorem rr_slice_runs_min_of_quantum_and_leftover
    (c iQuantum : Z) (cp : option ProcessNode) (cur : ProcessNode)
    (rq jq : list ProcessNode) (pq : List) :
  runnable cur → is_int c → 0 < iQuantum →
  Z.of_nat (length rq + length jq) <= INT_MAX →
  ∃ cur' s',
    rr_slice (Z.to_nat iQuantum) 0 iQuantum cur (mkSim c cp (mk rq) (mk jq) pq)
    = Ret (cur', s')
    ∧ CLOCK s' = int_add c (Z.min iQuantum (leftover cur))
    ∧ cur' = set_leftover cur (leftover cur - Z.min iQuantum (leftover cur))
    ∧ ProcessQueue s' = pq.
Proof.
  intros Hcur Hc Hq Hsize. rewrite rr_slice_mk by done.
  destruct (rr_sliceA _ _ _ _ _ _ _) as [[[cur' c'] rq'] jq'] eqn:E.
  pose proof (rr_sliceA_fields _ _ _ _ _ _ _ _ _ _ _ E) as Hf.
  apply rr_sliceA_ticks in E as [Hc' Hl]; [|done..].
  rewrite Z2Nat.id in Hc', Hl by lia.
  eexists _, _. split; [done|]. cbn [CLOCK ProcessQueue].
  split; [done|]. split; [|done]. by rewrite Hf, Hl.
Qed.

Lemma rr_slice_runs_min_of_quantum_and_leftover_witness :
  let cur := node_of (1, 0, 6, 0) in
  ∃ cur' s',
    rr_slice 4 0 4 cur (mkSim 10 (Some cur) (mk []) (mk []) init_list)
    = Ret (cur', s')
    ∧ CLOCK s' = 14 ∧ leftover cur' = 2.
Proof.
  intros cur.
  destruct (rr_slice_runs_min_of_quantum_and_leftover 10 4 (Some cur) cur
              [] [] init_list)
    as (cur' & s' & H & Hc & Hl & _);
    [by vm_compute|by vm_compute|lia|by vm_compute|].
  exists cur', s'. split; [exact H|]. rewrite Hc, Hl. by vm_compute.
Defined.

Lemma drained_rr q cur a :
  Forall (λ p, leftover p = 0) (a_done a) →
  Forall (λ p, leftover p = 0) (a_done (rr_bodyA q cur a)).
Proof.
  intros H. unfold rr_bodyA.
  destruct (rr_sliceA _ _ _ _ _ _ _) as [[[cur' c] rq] jq].
  destruct (Z.eqb_spec (leftover cur') 0) as [E|E]; rewrite a_done_popA; [|done].
  apply Forall_app. split; [done|]. by apply Forall_singleton.
Qed.

(** X11.  [rr] puts a process in the result queue only when it has run
    all its time: every record [rr] returns has [leftover = 0]. *)
Theorem rr_completes_with_no_leftover
    (fuel : nat) (rq : List) (iQuantum : Z) (pq : List) :
  counted rq → is_int (count rq) →
  processQueue fuel rq "RR" iQuantum = Ret pq →
  Forall (λ p, leftover p = 0) (nodes pq).
Proof.
  intros Hc Hi H. destruct (counted_is_mk rq Hc Hi) as [Hmk Hlen].
  rewrite Hmk in H. unfold processQueue in H.
  cbn [String.eqb Ascii.eqb Bool.eqb] in H.
  apply bind_Ret in H as ([rq' pq'] & H & [= <-]).
  unfold rr in H. apply bind_Ret in H as (s & Hs & [= _ <-]).
  apply rr_sim_Ret in Hs as (a & Ha & ->); [|done].
  apply (loopA_invariant (rr_bodyA iQuantum)
           (λ a, Forall (λ p, leftover p = 0) (a_done a))) in Ha as [Ha _].
  - done.
  - intros; by apply drained_rr.
  - destruct (nodes rq); constructor.
Qed.

Lemma rr_completes_with_no_leftover_witness :
  let rq := import [(1, 0, 5, 2); (2, 1, 3, 1); (3, 2, 8, 3)] init_list in
  ∃ pq, processQueue 20 rq "RR" 2 = Ret pq
        ∧ map pid (nodes pq) = [2; 1; 3]
        ∧ Forall (λ p, leftover p = 0) (nodes pq).
Proof.
  intros rq. eexists. split; [by vm_compute|]. split; [done|].
  apply (rr_completes_with_no_leftover 20 rq 2);
    [reflexivity|by vm_compute|by vm_compute].
Defined.

(* ------------------------------------------------------------------ *)
(** ** NPP: which process runs when *)
(* ------------------------------------------------------------------ *)

Lemma a_done_npp_bodyA cur a :
  ∃ c, a_done (npp_bodyA cur a) = a_done a ++ [complete cur c].
Proof.
  unfold npp_bodyA. destruct (npp_ticks _ _ _ _) as [[c rq] jq].
  exists c. by rewrite a_done_popA.
Qed.

(** X12.  [npp] starts the first line of the file at clock [0],
    whatever its arrival time and its priority, and runs it to the end:
    the first record of the result queue is that process with
    [finish = burst], and with [waiting = - arrival] when that fits an
    [int]. *)
Theorem npp_runs_the_first_line_first
    (fuel : nat) (rq : List) (p : ProcessNode) (l : list ProcessNode)
    (iQuantum : Z) (pq : List) :
  counted rq → is_int (count rq) → nodes rq = p :: l →
  0 <= burst p <= INT_MAX →
  processQueue fuel rq "NPP" iQuantum = Ret pq →
  ∃ rest, nodes pq = complete p (burst p) :: rest
          ∧ finish (complete p (burst p)) = burst p
          ∧ (is_int (- arrival p) → waiting (complete p (burst p)) = - arrival p).
Proof.
  intros Hc Hi Hn Hb H. destruct (counted_is_mk rq Hc Hi) as [Hmk Hlen].
  rewrite Hmk in H. unfold processQueue in H.
  cbn [String.eqb Ascii.eqb Bool.eqb] in H.
  apply bind_Ret in H as ([rq' pq'] & H & [= <-]).
  unfold npp in H. apply bind_Ret in H as (s & Hs & [= _ <-]).
  apply npp_sim_Ret in Hs as (a & Ha & ->); [|done].
  rewrite Hn in Ha. destruct fuel as [|fuel]; [done|].
  cbn [loopA initA a_cur] in Ha.
  set (a0 := mkAbs 0 (Some p) [] l []) in *.
  assert (Hp : a_done (npp_bodyA p a0) = [complete p (burst p)]).
  { destruct (npp_bodyA_clock p a0) as [H1 H2]; [done|lia|].
    rewrite H2, H1. cbn [a_done a_clock a0 app]. unfold int_add.
    rewrite Z.add_0_l, wrap_id; [done|]. unfold is_int, INT_MIN. lia. }
  apply (loopA_invariant npp_bodyA
           (λ a, ∃ rest, a_done a = complete p (burst p) :: rest)) in Ha
    as [[rest Ha] _].
  - exists rest. cbn [conc ProcessQueue mk nodes]. split; [done|].
    split; [done|]. intros Hneg. cbn. unfold int_sub.
    rewrite wrap_sub_l.
    replace (burst p - arrival p - burst p) with (- arrival p) by lia.
    by apply wrap_id.
  - intros cur x _ [rest Hx]. destruct (a_done_npp_bodyA cur x) as [c ->].
    rewrite Hx. by eexists.
  - rewrite Hp. by eexists.
Qed.

Lemma npp_runs_the_first_line_first_witness :
  let rq := import [(7, 4, 3, 9); (8, 1, 2, 0)] init_list in
  ∃ pq rest, processQueue 5 rq "NPP" 0 = Ret pq
             ∧ nodes pq = complete (node_of (7, 4, 3, 9)) 3 :: rest
             ∧ map line_of (nodes pq) = [(7, 4, 3, -4); (8, 1, 5, 2)].
Proof.
  intros rq.
  destruct (npp_runs_the_first_line_first 5 rq (node_of (7, 4, 3, 9))
              [node_of (8, 1, 2, 0)] 0
              (mk [complete (node_of (7, 4, 3, 9)) 3;
                   complete (node_of (8, 1, 2, 0)) 5]))
    as (rest & H & _);
    [reflexivity|by vm_compute|reflexivity|by vm_compute|by vm_compute|].
  eexists _, rest. split; [by vm_compute|]. split; [exact H|done].
Defined.

(** X13.  At the end of a round of [npp] the ready queue, with this
    tick's arrivals in it, is in ascending order of priority, and the
    process taken from its head to run next has a priority value no
    larger than any process left in it.  The next process, the ready
    queue and the job queue hold what the ready queue and the job queue
    held when the round began. *)
Theorem npp_dispatches_lowest_priority_value
    (c : Z) (cur : ProcessNode) (rq jq pq : list ProcessNode) :
  Z.of_nat (length rq + length jq + length pq + 1) <= INT_MAX →
  ∃ s', npp_body cur (mkSim c (Some cur) (mk rq) (mk jq) (mk pq)) = Ret s'
        ∧ StronglySorted by_priority (nodes (ReadyQueue s'))
        ∧ match currentProcess s' with
          | Some next => Forall (by_priority next) (nodes (ReadyQueue s'))
          | None => nodes (ReadyQueue s') = []
          end
        ∧ (match currentProcess s' with Some next => [next] | None => [] end
           ++ nodes (ReadyQueue s')) ++ nodes (JobQueue s')
          ≡ₚ rq ++ jq.
Proof.
  intros Hsize. set (a := mkAbs c (Some cur) rq jq pq).
  change (mkSim c (Some cur) (mk rq) (mk jq) (mk pq)) with (conc a).
  rewrite npp_body_conc by (done || (unfold size; cbn; lia)).
  eexists. split; [done|]. unfold npp_bodyA.
  destruct (npp_ticks _ _ _ _) as [[c1 rq1] jq1] eqn:E.
  apply npp_ticks_perm in E. cbn [a_ready a_job a] in E.
  pose proof (isort_sorted (rq1 ++ arrived c1 jq1)) as Hs.
  pose proof (isort_perm (rq1 ++ arrived c1 jq1)) as Hp.
  destruct (isort (rq1 ++ arrived c1 jq1)) as [|next rest];
    cbn [popA conc a_cur a_ready a_job currentProcess ReadyQueue JobQueue mk nodes].
  - split; [constructor|]. split; [done|].
    cbn [app]. rewrite <- E, <- admit_perm, <- Hp. done.
  - apply StronglySorted_inv in Hs as [Hs Hall].
    split; [done|]. split; [done|].
    cbn [app]. rewrite <- E, <- (admit_perm c1 rq1 jq1), <- Hp. done.
Qed.

Lemma npp_dispatches_lowest_priority_value_witness :
  let cur := node_of (1, 0, 2, 5) in
  let jq := [node_of (2, 1, 3, 4); node_of (3, 2, 1, 1); node_of (4, 2, 1, 4);
             node_of (5, 9, 1, 0)] in
  ∃ s', npp_body cur (mkSim 0 (Some cur) (mk []) (mk jq) (mk [])) = Ret s'
        ∧ pid <$> currentProcess s' = Some 3
        ∧ map pid (nodes (ReadyQueue s')) = [2; 4].
Proof.
  intros cur jq.
  destruct (npp_dispatches_lowest_priority_value 0 cur [] jq [])
    as (s' & H & _); [by vm_compute|].
  exists s'. split; [exact H|].
  assert (Hs : Ret s' = npp_body cur (mkSim 0 (Some cur) (mk []) (mk jq) (mk [])))
    by done.
  vm_compute in Hs. injection Hs as ->. done.
Defined.

(* ------------------------------------------------------------------ *)
(** ** More on [swapWithNext], [insSortPriority] and [arrivalChecker] *)
(* ------------------------------------------------------------------ *)

(** X14.  [swapWithNext] on a node that has a successor exchanges the
    two payloads and leaves every other node alone; doing it again puts
    the chain back.  On the last node of a chain (or past it) it reads
    through [NULL]. *)
Theorem swapWithNext_exchanges (l : list ProcessNode) (i : nat) :
  ((S i < length l)%nat →
   ∃ l', swapWithNext l i = Ret l'
         ∧ length l' = length l
         ∧ l' !! i = l !! S i ∧ l' !! S i = l !! i
         ∧ (∀ j, j ≠ i → j ≠ S i → l' !! j = l !! j)
         ∧ swapWithNext l' i = Ret l)
  ∧ ((length l <= S i)%nat → swapWithNext l i = NullDeref).
Proof.
  split.
  - intros Hi.
    assert (Hgen : ∀ pre a b post,
      ∃ l', swapWithNext (pre ++ a :: b :: post) (length pre) = Ret l'
            ∧ length l' = length (pre ++ a :: b :: post)
            ∧ l' !! length pre = (pre ++ a :: b :: post) !! S (length pre)
            ∧ l' !! S (length pre) = (pre ++ a :: b :: post) !! length pre
            ∧ (∀ j, j ≠ length pre → j ≠ S (length pre) →
                 l' !! j = (pre ++ a :: b :: post) !! j)
            ∧ swapWithNext l' (length pre) = Ret (pre ++ a :: b :: post)).
    { intros pre a b post. rewrite swapWithNext_middle. eexists.
      split; [done|]. split; [by rewrite !length_app|].
      split.
      { rewrite list_lookup_middle by done. rewrite lookup_app_r by lia.
        by replace (S (length pre) - length pre)%nat with 1%nat by lia. }
      split.
      { rewrite lookup_app_r by lia.
        replace (S (length pre) - length pre)%nat with 1%nat by lia.
        by rewrite list_lookup_middle. }
      split; [|apply swapWithNext_middle].
      intros j Hj1 Hj2.
      destruct (decide (j < length pre)%nat).
      + by rewrite !lookup_app_l by done.
      + rewrite !lookup_app_r by lia.
        destruct (j - length pre)%nat as [|[|k]] eqn:Ek; [lia|lia|done]. }
    destruct (lookup_lt_is_Some_2 l i) as [a Ha]; [lia|].
    destruct (lookup_lt_is_Some_2 l (S i)) as [b Hb]; [lia|].
    assert (Hl : take i l ++ a :: b :: drop (S (S i)) l = l).
    { rewrite <- (drop_S l b (S i) Hb). by apply take_drop_middle. }
    assert (Hlen : length (take i l) = i) by (rewrite length_take; lia).
    specialize (Hgen (take i l) a b (drop (S (S i)) l)).
    by rewrite Hl, Hlen in Hgen.
  - intros Hi. unfold swapWithNext.
    rewrite (lookup_ge_None_2 l (S i)) by lia.
    by destruct (l !! i).
Qed.

Lemma swapWithNext_exchanges_witness :
  let l := [init_process 1 0 1 3; init_process 2 0 1 2; init_process 3 0 1 1] in
  ∃ l', swapWithNext l 1 = Ret l'
        ∧ map pid l' = [1; 3; 2]
        ∧ swapWithNext l' 1 = Ret l.
Proof.
  intros l. destruct (swapWithNext_exchanges l 1) as [H _].
  destruct H as (l' & H1 & _ & _ & _ & _ & H2); [cbn; lia|].
  exists l'. split; [exact H1|]. split; [|exact H2].
  vm_compute in H1. by injection H1 as <-.
Defined.

Lemma fold_ins_rev_sorted rest : ∀ r,
  r ≠ [] → StronglySorted by_priority (reverse r ++ rest) →
  fold_left (λ r x, ins_rev x r) rest r = reverse rest ++ r.
Proof.
  induction rest as [|x rest IH]; intros r Hr Hs; [done|].
  cbn [fold_left]. destruct r as [|a r]; [done|].
  assert (Hax : priority a <= priority x).
  { apply StronglySorted_app in Hs as (Hs & _ & _). apply (Hs a x).
    - rewrite elem_of_reverse. by left.
    - by left. }
  cbn [ins_rev]. destruct (Z.gtb_spec (priority a) (priority x)); [lia|].
  rewrite IH; [|done|].
  - by rewrite reverse_cons, <- app_assoc.
  - by rewrite reverse_cons, <- app_assoc.
Qed.

Lemma isort_sorted_id l : StronglySorted by_priority l → isort l = l.
Proof.
  intros Hs. destruct l as [|a rest]; [done|]. unfold isort.
  rewrite fold_ins_rev_sorted; [|done|done].
  by rewrite reverse_app, reverse_involutive.
Qed.

(** X15.  [insSortPriority] leaves a queue that is already in ascending
    priority order exactly as it is, so sorting a second time changes
    nothing: the order among processes of equal priority is still the
    one in which they entered the queue, however often [npp] sorts. *)
Theorem insSortPriority_keeps_a_sorted_queue (q : List) :
  nodes q ≠ [] → counted q →
  (StronglySorted by_priority (nodes q) → insSortPriority q = Ret q)
  ∧ (∀ q', insSortPriority q = Ret q' → insSortPriority q' = Ret q').
Proof.
  intros Hne Hc.
  assert (H1 : ∀ q0, nodes q0 ≠ [] → counted q0 →
            StronglySorted by_priority (nodes q0) → insSortPriority q0 = Ret q0).
  { intros q0 Hne0 Hc0 Hs. rewrite insSortPriority_isort by done.
    rewrite isort_sorted_id by done. by destruct q0. }
  split; [by apply H1|].
  intros q' Hq'. rewrite insSortPriority_isort in Hq' by done.
  injection Hq' as <-. apply H1.
  - cbn [nodes]. intros E. apply Hne.
    apply Permutation_nil_r. rewrite <- E. symmetry. apply isort_perm.
  - unfold counted in *. cbn [nodes count]. by rewrite length_isort.
  - apply isort_sorted.
Qed.

Lemma insSortPriority_keeps_a_sorted_queue_witness :
  let q := mk [init_process 1 0 1 1; init_process 2 0 1 1; init_process 3 0 1 4] in
  insSortPriority q = Ret q.
Proof.
  intros q. destruct (insSortPriority_keeps_a_sorted_queue q) as [H _];
    [done|reflexivity|].
  apply H. repeat constructor; by vm_compute.
Defined.

Lemma arrived_pending_same clock l : arrived clock (pending clock l) = [].
Proof.
  unfold arrived, pending. induction l as [|p l IH]; [done|].
  rewrite (filter_cons (λ p, arrival p ≠ clock)).
  case_decide; [|exact IH].
  rewrite filter_cons. case_decide; [congruence|exact IH].
Qed.

Lemma pending_pending_same clock l :
  pending clock (pending clock l) = pending clock l.
Proof.
  unfold pending. induction l as [|p l IH]; [done|].
  rewrite (filter_cons _ p l).
  case_decide; [|exact IH].
  rewrite filter_cons. case_decide; [by rewrite IH|congruence].
Qed.

(** X16.  A second call of [arrivalChecker] for the same tick moves
    nothing: the records that arrive at that tick have left the pool
    with the first call.  ([npp] and [rr] make such a second call after
    a process completes on a tick for which they have admitted
    already.) *)
Theorem arrivalChecker_again_moves_nothing (rq jq : List) (clock : Z) :
  counted jq → is_int (count jq) → is_int (count rq) →
  ∃ rq' jq',
    arrivalChecker rq jq clock = Ret (rq', jq')
    ∧ arrivalChecker rq' jq' clock = Ret (rq', jq').
Proof.
  intros Hc Hi Hr. rewrite arrivalChecker_counted by done.
  eexists _, _. split; [done|].
  pose proof (arrived_pending_same clock (nodes jq)) as Ha.
  pose proof (pending_pending_same clock (nodes jq)) as Hp.
  rewrite arrivalChecker_counted; cbn [nodes count].
  - rewrite Ha, Hp, app_nil_r. cbn [length]. rewrite Z.add_0_r.
    by rewrite wrap_id by apply wrap_is_int.
  - reflexivity.
  - pose proof (length_arrived_pending clock (nodes jq)).
    unfold counted in Hc. unfold is_int, INT_MIN, INT_MAX in *. lia.
  - apply wrap_is_int.
Qed.

Lemma arrivalChecker_again_moves_nothing_witness :
  let rq := mk [init_process 9 0 1 0] in
  let jq := mk [init_process 1 3 5 2; init_process 2 4 3 1; init_process 3 3 8 2] in
  ∃ rq' jq',
    arrivalChecker rq jq 3 = Ret (rq', jq')
    ∧ map pid (nodes rq') = [9; 1; 3]
    ∧ arrivalChecker rq' jq' 3 = Ret (rq', jq').
Proof.
  intros rq jq.
  destruct (arrivalChecker_again_moves_nothing rq jq 3)
    as (rq' & jq' & H1 & H2); [reflexivity|by vm_compute|by vm_compute|].
  exists rq', jq'. split; [exact H1|]. split; [|exact H2].
  vm_compute in H1. by injection H1 as <- <-.
Defined.

(* ------------------------------------------------------------------ *)
(** ** Runs without overflow *)
(* ------------------------------------------------------------------ *)

Lemma early_pending c l : 0 < c → early (pending c l) = early l.
Proof.
  intros Hc. unfold early, pending. induction l as [|p l IH]; [done|].
  rewrite (filter_cons (λ p, arrival p ≠ c)), (filter_cons _ p l).
  case_decide; case_decide; rewrite ?filter_cons; repeat case_decide;
    try lia; try done; by rewrite IH.
Qed.

Lemma total_burst_app l k : total_burst (l ++ k) = (total_burst l + total_burst k)%nat.
Proof. apply sum_list_with_app. Qed.

Lemma total_burst_perm l k : l ≡ₚ k → total_burst l = total_burst k.
Proof. intros H. unfold total_burst. by rewrite H. Qed.

Lemma runq_popA c rq jq pq : runq (popA c rq jq pq) = rq.
Proof. by destruct rq. Qed.

Lemma a_job_popA c rq jq pq : a_job (popA c rq jq pq) = jq.
Proof. by destruct rq. Qed.

Lemma npp_ticks_in_range n : ∀ c rq jq c' rq' jq',
  0 <= c → c + Z.of_nat n <= INT_MAX →
  npp_ticks n c rq jq = (c', rq', jq') →
  c' = c + Z.of_nat n ∧ early jq' = early jq
  ∧ (Forall (λ r, 0 <= arrival r <= c) rq →
     Forall (λ r, 0 <= arrival r <= c') rq').
Proof.
  induction n as [|n IH]; intros c rq jq c' rq' jq' Hc Hmax H;
    cbn [npp_ticks] in H.
  - inversion H; subst. split; [lia|]. split; [done|]. done.
  - assert (Hc1 : int_add c 1 = c + 1).
    { apply wrap_id. unfold is_int, INT_MIN, INT_MAX in *. lia. }
    rewrite Hc1 in H. apply IH in H as (-> & He & Hf); [|lia|lia].
    split; [lia|]. split; [by rewrite He, early_pending by lia|].
    intros Hrq. apply Hf. rewrite isort_perm. apply Forall_app. split.
    + eapply Forall_impl; [exact Hrq|]. cbn. intros r ?. lia.
    + apply Forall_forall. intros r Hr.
      apply list_elem_of_filter in Hr as [Hr _]. lia.
Qed.

Lemma npp_in_range_body job0 cur a :
  a_cur a = Some cur → npp_in_range job0 a →
  npp_in_range job0 (npp_bodyA cur a)
  ∧ a_clock (npp_bodyA cur a) = a_clock a + burst cur
  ∧ 0 < burst cur.
Proof.
  intros Hcur (Hc & Hmax & Hb & He).
  assert (Hlive : live a = cur :: a_ready a ++ a_job a)
    by (unfold live; by rewrite Hcur).
  rewrite Hlive in Hmax, Hb. apply Forall_cons in Hb as [Hbc Hb].
  change (cur :: a_ready a ++ a_job a) with ([cur] ++ a_ready a ++ a_job a) in Hmax.
  rewrite total_burst_app in Hmax. cbn [total_burst sum_list_with] in Hmax.
  fold (total_burst (a_ready a ++ a_job a)) in Hmax.
  unfold npp_bodyA.
  destruct (npp_ticks _ _ _ _) as [[c rq] jq] eqn:E.
  pose proof (npp_ticks_perm _ _ _ _ _ _ _ E) as Hp.
  apply npp_ticks_in_range in E as (-> & He' & _); [|lia|lia].
  rewrite Z2Nat.id by lia.
  split; [|by rewrite a_clock_popA].
  assert (Hperm : isort (rq ++ arrived (a_clock a + burst cur) jq)
                  ++ pending (a_clock a + burst cur) jq
                  ≡ₚ a_ready a ++ a_job a)
    by (by rewrite isort_perm, admit_perm, Hp).
  unfold npp_in_range.
  rewrite a_clock_popA, live_popA, a_job_popA, (total_burst_perm _ _ Hperm).
  split; [lia|]. split; [lia|].
  split; [eapply Permutation_Forall; [symmetry; exact Hperm|exact Hb]|].
  by rewrite early_pending, He' by lia.
Qed.

Lemma npp_in_range_initA p l :
  Forall (λ r, 0 < burst r) (p :: l) →
  Z.of_nat (total_burst (p :: l)) <= INT_MAX →
  npp_in_range l (initA (p :: l)).
Proof. intros Hb Hmax. by repeat split. Qed.

(** X17.  In a run of [npp] on positive burst times that add up to no
    more than [INT_MAX], [arrivalChecker] is only ever called for
    positive clock values.  So every process but the first of the file
    whose arrival time is [0] or less is never admitted: it is still in
    the job queue, in its place among its like, when [npp] returns. *)
Theorem npp_never_admits_early_arrivals
    (fuel : nat) (rq : List) (p : ProcessNode) (l : list ProcessNode) (s : Sim) :
  counted rq → is_int (count rq) → nodes rq = p :: l →
  Forall (λ r, 0 < burst r) (nodes rq) →
  Z.of_nat (total_burst (nodes rq)) <= INT_MAX →
  npp_sim fuel rq init_list = Ret s →
  early (nodes (JobQueue s)) = early l.
Proof.
  intros Hc Hi Hn Hb Hmax H. destruct (counted_is_mk rq Hc Hi) as [Hmk Hlen].
  rewrite Hmk in H. apply npp_sim_Ret in H as (a & Ha & ->); [|done].
  rewrite Hn in *.
  apply (loopA_invariant npp_bodyA (npp_in_range l)) in Ha as [(_ & _ & _ & Ha) _].
  - done.
  - intros cur x Hcur Hx. by apply npp_in_range_body.
  - by apply npp_in_range_initA.
Qed.

Lemma npp_never_admits_early_arrivals_witness :
  let rq := import [(1, 0, 2, 0); (2, 0, 3, 0); (3, 1, 1, 0); (4, 0, 1, 0)]
                   init_list in
  ∃ s, npp_sim 9 rq init_list = Ret s
       ∧ map pid (nodes (ProcessQueue s)) = [1; 3]
       ∧ map pid (early (nodes (JobQueue s))) = [2; 4].
Proof.
  intros rq. eexists. split; [by vm_compute|]. split; [done|].
  rewrite (npp_never_admits_early_arrivals 9 rq (node_of (1, 0, 2, 0))
             [node_of (2, 0, 3, 0); node_of (3, 1, 1, 0); node_of (4, 0, 1, 0)]);
    [done|reflexivity|by vm_compute|reflexivity
    |repeat constructor; by vm_compute|by vm_compute|by vm_compute].
Defined.

Lemma waited_complete cur c :
  0 <= arrival cur → 0 <= burst cur → arrival cur + burst cur <= c <= INT_MAX →
  waited (complete cur c).
Proof.
  intros Ha Hb Hc. unfold waited, complete, int_sub. cbn.
  rewrite (wrap_id (c - arrival cur))
    by (unfold is_int, INT_MIN, INT_MAX in *; lia).
  rewrite wrap_id by (unfold is_int, INT_MIN, INT_MAX in *; lia). lia.
Qed.

Lemma npp_waited_body job0 cur a :
  a_cur a = Some cur → npp_in_range job0 a → npp_waited a →
  npp_waited (npp_bodyA cur a).
Proof.
  intros Hcur Hr [Hq Hd].
  destruct (npp_in_range_body job0 cur a Hcur Hr) as ((_ & Hmax' & _) & Hclock & Hb).
  destruct Hr as (Hc & Hmax & _).
  unfold runq in Hq. rewrite Hcur in Hq. apply Forall_cons in Hq as [Hqc Hq].
  assert (Hlive : live a = [cur] ++ a_ready a ++ a_job a)
    by (unfold live; by rewrite Hcur).
  rewrite Hlive, total_burst_app in Hmax. cbn [total_burst sum_list_with] in Hmax.
  revert Hclock Hmax'. unfold npp_bodyA, npp_waited.
  destruct (npp_ticks _ _ _ _) as [[c rq] jq] eqn:E.
  rewrite a_clock_popA, runq_popA, a_done_popA. intros -> Hmax'.
  apply npp_ticks_in_range in E as (_ & _ & Hf); [|lia|lia].
  split.
  - rewrite isort_perm. apply Forall_app. split; [by apply Hf|].
    apply Forall_forall. intros r Hr.
    apply list_elem_of_filter in Hr as [Hr _]. lia.
  - apply Forall_app. split; [done|]. apply Forall_singleton.
    apply waited_complete; lia.
Qed.

(** X18.  When the first line of the file arrives at [0], the burst
    times are positive and add up to no more than [INT_MAX], [npp]
    completes a process only after it has arrived and run its burst:
    every record of the result queue has [waiting >= 0], and
    [finish = arrival + burst + waiting] holds between the integers. *)
Theorem npp_waiting_times_are_not_negative
    (fuel : nat) (rq : List) (p : ProcessNode) (l : list ProcessNode)
    (iQuantum : Z) (pq : List) :
  counted rq → is_int (count rq) → nodes rq = p :: l → arrival p = 0 →
  Forall (λ r, 0 < burst r) (nodes rq) →
  Z.of_nat (total_burst (nodes rq)) <= INT_MAX →
  processQueue fuel rq "NPP" iQuantum = Ret pq →
  Forall waited (nodes pq).
Proof.
  intros Hc Hi Hn Hp Hb Hmax H. destruct (counted_is_mk rq Hc Hi) as [Hmk Hlen].
  rewrite Hmk in H. unfold processQueue in H.
  cbn [String.eqb Ascii.eqb Bool.eqb] in H.
  apply bind_Ret in H as ([rq' pq'] & H & [= <-]).
  unfold npp in H. apply bind_Ret in H as (s & Hs & [= _ <-]).
  apply npp_sim_Ret in Hs as (a & Ha & ->); [|done].
  rewrite Hn in *.
  apply (loopA_invariant npp_bodyA (λ a, npp_in_range l a ∧ npp_waited a))
    in Ha as [(_ & _ & Ha) _].
  - done.
  - intros cur x Hcur [Hx1 Hx2]. split.
    + by apply npp_in_range_body.
    + by eapply npp_waited_body.
  - split; [by apply npp_in_range_initA|].
    split; [|constructor]. apply Forall_singleton. cbn. lia.
Qed.

Lemma npp_waiting_times_are_not_negative_witness :
  let rq := import [(1, 0, 5, 2); (2, 1, 3, 1); (3, 2, 8, 3); (4, 3, 1, 0)]
                   init_list in
  ∃ pq, processQueue 9 rq "NPP" 0 = Ret pq
        ∧ map line_of (nodes pq) = [(1, 0, 5, 0); (4, 3, 6, 2); (2, 1, 9, 5); (3, 2, 17, 7)]
        ∧ Forall waited (nodes pq).
Proof.
  intros rq. eexists. split; [by vm_compute|]. split; [done|].
  apply (npp_waiting_times_are_not_negative 9 rq (node_of (1, 0, 5, 2))
           [node_of (2, 1, 3, 1); node_of (3, 2, 8, 3); node_of (4, 3, 1, 0)] 0);
    [reflexivity|by vm_compute|reflexivity|reflexivity
    |repeat constructor; by vm_compute|by vm_compute|by vm_compute].
Defined.

Lemma served_mono c c' r : c <= c' → served c r → served c' r.
Proof. unfold served. lia. Qed.

Lemma served_arrived c jq :
  0 <= c → Forall (λ r, leftover r = burst r) jq →
  Forall (served c) (arrived c jq).
Proof.
  intros Hc Hj. apply Forall_forall. intros r Hr.
  apply list_elem_of_filter in Hr as [Ha Hr].
  rewrite Forall_forall in Hj. specialize (Hj r Hr). unfold served. lia.
Qed.

Lemma fresh_pending c jq :
  Forall (λ r, leftover r = burst r) jq →
  Forall (λ r, leftover r = burst r) (pending c jq).
Proof.
  intros H. apply Forall_forall. intros r Hr.
  apply list_elem_of_filter in Hr as [_ Hr].
  rewrite Forall_forall in H. by apply H.
Qed.

Lemma rr_sliceA_in_range n : ∀ i q cur c rq jq cur' c' rq' jq',
  runnable cur → 0 <= c → c + leftover cur <= INT_MAX →
  rr_sliceA n i q cur c rq jq = (cur', c', rq', jq') →
  c' = c + Z.min (Z.of_nat n) (leftover cur)
  ∧ early jq' = early jq
  ∧ (Forall (served c) rq → Forall (λ r, leftover r = burst r) jq →
     Forall (served c') rq' ∧ Forall (λ r, leftover r = burst r) jq').
Proof.
  unfold runnable.
  induction n as [|n IH]; intros i q cur c rq jq cur' c' rq' jq' Hcur Hc Hmax H;
    cbn [rr_sliceA] in H.
  - inversion H; subst. split; [lia|]. split; [done|]. done.
  - assert (Hdec : int_sub (leftover cur) 1 = leftover cur - 1).
    { apply wrap_id. unfold is_int, INT_MIN, INT_MAX in *. lia. }
    assert (Hc1 : int_add c 1 = c + 1).
    { apply wrap_id. unfold is_int, INT_MIN, INT_MAX in *. lia. }
    rewrite Hdec, Hc1 in H.
    set (cur1 := set_leftover cur (leftover cur - 1)) in *.
    assert (Hl1 : leftover cur1 = leftover cur - 1) by done.
    assert (Hr : ∀ rq1 jq1,
      early jq1 = early jq →
      (Forall (served c) rq → Forall (λ r, leftover r = burst r) jq →
       Forall (served (c + 1)) rq1 ∧ Forall (λ r, leftover r = burst r) jq1) →
      (if leftover cur1 =? 0 then (cur1, c + 1, rq1, jq1)
       else rr_sliceA n (int_add i 1) q cur1 (c + 1) rq1 jq1)
      = (cur', c', rq', jq') →
      c' = c + Z.min (Z.of_nat (S n)) (leftover cur)
      ∧ early jq' = early jq
      ∧ (Forall (served c) rq → Forall (λ r, leftover r = burst r) jq →
         Forall (served c') rq' ∧ Forall (λ r, leftover r = burst r) jq')).
    { intros rq1 jq1 He1 Hs1 H1.
      destruct (Z.eqb_spec (leftover cur1) 0) as [E|E].
      - inversion H1; subst cur' c' rq' jq'. split; [lia|]. done.
      - apply IH in H1 as (-> & He & Hs); [|lia|lia|lia].
        split; [lia|]. split; [congruence|].
        intros Hrq Hjq. destruct (Hs1 Hrq Hjq) as [Hrq1 Hjq1].
        by apply Hs. }
    destruct (i <? int_sub q 1); eapply Hr; try exact H.
    + apply early_pending. lia.
    + intros Hrq Hjq. split; [|by apply fresh_pending].
      apply Forall_app. split.
      * eapply Forall_impl; [exact Hrq|]. intros r. apply served_mono. lia.
      * apply served_arrived; [lia|done].
    + done.
    + intros Hrq Hjq. split; [|done].
      eapply Forall_impl; [exact Hrq|]. intros r. apply served_mono. lia.
Qed.

Lemma total_leftover_perm l k : l ≡ₚ k → total_leftover l = total_leftover k.
Proof. intros H. unfold total_leftover. by rewrite H. Qed.

Lemma total_leftover_app l k :
  total_leftover (l ++ k) = (total_leftover l + total_leftover k)%nat.
Proof. apply sum_list_with_app. Qed.

(** What a round of [rr] does when nothing overflows. *)
Lemma rr_in_range_round job0 q cur a :
  0 < q → a_cur a = Some cur → rr_in_range job0 a →
  rr_in_range job0 (rr_bodyA q cur a)
  ∧ (rr_waited a → rr_waited (rr_bodyA q cur a)).
Proof.
  intros Hq Hcur (Hc & Hmax & Hrun & He).
  assert (Hlive : live a = [cur] ++ a_ready a ++ a_job a)
    by (unfold live; by rewrite Hcur).
  rewrite Hlive in Hmax, Hrun. apply Forall_app in Hrun as [Hrc Hrun].
  rewrite Forall_singleton in Hrc.
  rewrite total_leftover_app in Hmax.
  cbn [total_leftover sum_list_with] in Hmax.
  fold (total_leftover (a_ready a ++ a_job a)) in Hmax.
  assert (HL : 0 < leftover cur <= INT_MAX) by exact Hrc.
  unfold rr_bodyA.
  destruct (rr_sliceA _ _ _ _ _ _ _) as [[[cur' c] rq] jq] eqn:E.
  pose proof (rr_sliceA_perm _ _ _ _ _ _ _ _ _ _ _ E) as Hp.
  pose proof (rr_sliceA_fields _ _ _ _ _ _ _ _ _ _ _ E) as Hf.
  pose proof (rr_sliceA_cur _ _ _ _ _ _ _ _ _ _ _ Hrc E) as (_ & Hl1 & Hl2).
  assert (Hl3 : leftover cur' < leftover cur) by (apply Hl2; lia).
  assert (Hint : is_int (a_clock a))
    by (unfold is_int, INT_MIN, INT_MAX in *; lia).
  pose proof (rr_sliceA_ticks _ _ _ _ _ _ _ _ _ _ _ Hrc Hint E) as [_ Hleft].
  apply rr_sliceA_in_range in E as (Hc' & He' & Hs); [|done|done|lia].
  rewrite Z2Nat.id in Hc', Hleft by lia.
  assert (Hck : c = a_clock a + (leftover cur - leftover cur')) by lia.
  clear Hc' Hleft Hl2.
  assert (Hfields : arrival cur' = arrival cur ∧ burst cur' = burst cur)
    by (rewrite Hf; by destruct cur).
  destruct Hfields as [Harr Hbur].
  destruct (Z.eqb_spec (leftover cur') 0) as [E0|E0].
  - assert (Hperm : (rq ++ arrived c jq) ++ pending c jq ≡ₚ a_ready a ++ a_job a)
      by (by rewrite admit_perm, Hp).
    split.
    + unfold rr_in_range.
      rewrite a_clock_popA, live_popA, a_job_popA, (total_leftover_perm _ _ Hperm).
      split; [lia|]. split; [lia|].
      split; [eapply Permutation_Forall; [symmetry; exact Hperm|exact Hrun]|].
      by rewrite early_pending, He' by lia.
    + intros (Hq' & Hj & Hd). unfold runq in Hq'. rewrite Hcur in Hq'.
      apply Forall_cons in Hq' as [Hsc Hsr].
      destruct (Hs Hsr Hj) as [Hsr' Hj'].
      unfold rr_waited. rewrite a_clock_popA, runq_popA, a_job_popA, a_done_popA.
      split; [|split].
      * apply Forall_app. split; [done|]. apply served_arrived; [lia|done].
      * by apply fresh_pending.
      * apply Forall_app. split; [done|]. apply Forall_singleton.
        unfold served in Hsc. apply waited_complete; lia.
  - assert (Hperm : ((rq ++ [cur']) ++ arrived c jq) ++ pending c jq
                    ≡ₚ [cur'] ++ a_ready a ++ a_job a).
    { rewrite admit_perm, <- app_assoc. cbn [app].
      by rewrite <- Permutation_middle, Hp. }
    split.
    + unfold rr_in_range.
      rewrite a_clock_popA, live_popA, a_job_popA, (total_leftover_perm _ _ Hperm).
      rewrite total_leftover_app. cbn [total_leftover sum_list_with].
      fold (total_leftover (a_ready a ++ a_job a)).
      split; [lia|]. split; [lia|].
      split; [|by rewrite early_pending, He' by lia].
      eapply Permutation_Forall; [symmetry; exact Hperm|].
      apply Forall_app. split; [|done]. apply Forall_singleton.
      unfold runnable. lia.
    + intros (Hq' & Hj & Hd). unfold runq in Hq'. rewrite Hcur in Hq'.
      apply Forall_cons in Hq' as [Hsc Hsr].
      destruct (Hs Hsr Hj) as [Hsr' Hj'].
      unfold rr_waited. rewrite a_clock_popA, runq_popA, a_job_popA, a_done_popA.
      split; [|split]; [|by apply fresh_pending|done].
      apply Forall_app. split; [|apply served_arrived; [lia|done]].
      apply Forall_app. split; [done|]. apply Forall_singleton.
      unfold served in *. lia.
Qed.

Lemma rr_in_range_initA p l :
  Forall runnable (p :: l) →
  Z.of_nat (total_leftover (p :: l)) <= INT_MAX →
  rr_in_range l (initA (p :: l)).
Proof. intros Hb Hmax. by repeat split. Qed.

(** X19.  In a run of [rr] with a positive quantum on positive
    leftover times that add up to no more than [INT_MAX],
    [arrivalChecker] is only ever called for positive clock values.  So
    every process but the first of the file whose arrival time is [0]
    or less is never admitted: it is still in the job queue when [rr]
    returns. *)
Theorem rr_never_admits_early_arrivals
    (fuel : nat) (iQuantum : Z) (rq : List) (p : ProcessNode)
    (l : list ProcessNode) (s : Sim) :
  counted rq → is_int (count rq) → nodes rq = p :: l → 0 < iQuantum →
  Forall runnable (nodes rq) →
  Z.of_nat (total_leftover (nodes rq)) <= INT_MAX →
  rr_sim fuel rq init_list iQuantum = Ret s →
  early (nodes (JobQueue s)) = early l.
Proof.
  intros Hc Hi Hn Hq Hb Hmax H. destruct (counted_is_mk rq Hc Hi) as [Hmk Hlen].
  rewrite Hmk in H. apply rr_sim_Ret in H as (a & Ha & ->); [|done].
  rewrite Hn in *.
  apply (loopA_invariant (rr_bodyA iQuantum) (rr_in_range l)) in Ha
    as [(_ & _ & _ & Ha) _].
  - done.
  - intros cur x Hcur Hx. by apply rr_in_range_round.
  - by apply rr_in_range_initA.
Qed.

Lemma rr_never_admits_early_arrivals_witness :
  let rq := import [(1, 0, 5, 0); (2, 0, 3, 0); (3, 2, 1, 0)] init_list in
  ∃ s, rr_sim 9 rq init_list 4 = Ret s
       ∧ map pid (nodes (ProcessQueue s)) = [3; 1]
       ∧ map pid (early (nodes (JobQueue s))) = [2].
Proof.
  intros rq. eexists. split; [by vm_compute|]. split; [done|].
  rewrite (rr_never_admits_early_arrivals 9 4 rq (node_of (1, 0, 5, 0))
             [node_of (2, 0, 3, 0); node_of (3, 2, 1, 0)]);
    [done|reflexivity|by vm_compute|reflexivity|lia
    |repeat constructor; by vm_compute|by vm_compute|by vm_compute].
Defined.

(** X20.  When the first line of the file arrives at [0], the quantum
    is positive, and the leftover times are the burst times, positive
    and no more than [INT_MAX] in sum, [rr] completes a process only
    after it has arrived and run its burst: every record of the result
    queue has [waiting >= 0], and [finish = arrival + burst + waiting]
    holds between the integers. *)
Theorem rr_waiting_times_are_not_negative
    (fuel : nat) (rq : List) (p : ProcessNode) (l : list ProcessNode)
    (iQuantum : Z) (pq : List) :
  counted rq → is_int (count rq) → nodes rq = p :: l → arrival p = 0 →
  0 < iQuantum →
  Forall runnable (nodes rq) →
  Forall (λ r, leftover r = burst r) (nodes rq) →
  Z.of_nat (total_leftover (nodes rq)) <= INT_MAX →
  processQueue fuel rq "RR" iQuantum = Ret pq →
  Forall waited (nodes pq).
Proof.
  intros Hc Hi Hn Hp Hq Hb Hfresh Hmax H.
  destruct (counted_is_mk rq Hc Hi) as [Hmk Hlen].
  rewrite Hmk in H. unfold processQueue in H.
  cbn [String.eqb Ascii.eqb Bool.eqb] in H.
  apply bind_Ret in H as ([rq' pq'] & H & [= <-]).
  unfold rr in H. apply bind_Ret in H as (s & Hs & [= _ <-]).
  apply rr_sim_Ret in Hs as (a & Ha & ->); [|done].
  rewrite Hn in *.
  apply (loopA_invariant (rr_bodyA iQuantum) (λ a, rr_in_range l a ∧ rr_waited a))
    in Ha as [(_ & _ & _ & Ha) _].
  - done.
  - intros cur x Hcur [Hx1 Hx2].
    destruct (rr_in_range_round l iQuantum cur x Hq Hcur Hx1) as [H1 H2].
    split; [done|by apply H2].
  - split; [by apply rr_in_range_initA|].
    apply Forall_cons in Hfresh as [Hfp Hfl].
    split; [|split; [done|constructor]].
    apply Forall_singleton. unfold served. cbn. lia.
Qed.

Lemma rr_waiting_times_are_not_negative_witness :
  let rq := import [(1, 0, 3, 0); (2, 1, 2, 0); (3, 2, 1, 0)] init_list in
  ∃ pq, processQueue 9 rq "RR" 2 = Ret pq
        ∧ map line_of (nodes pq) = [(2, 1, 4, 1); (1, 0, 5, 2); (3, 2, 6, 3)]
        ∧ Forall waited (nodes pq).
Proof.
  intros rq. eexists. split; [by vm_compute|]. split; [done|].
  apply (rr_waiting_times_are_not_negative 9 rq (node_of (1, 0, 3, 0))
           [node_of (2, 1, 2, 0); node_of (3, 2, 1, 0)] 2);
    [reflexivity|by vm_compute|reflexivity|reflexivity|lia
    |repeat constructor; by vm_compute|repeat constructor
    |by vm_compute|by vm_compute].
Defined.

(* ------------------------------------------------------------------ *)
(** ** How a scheduler starts *)
(* ------------------------------------------------------------------ *)

(** X21.  Both schedulers start the same way on a ready queue whose
    [count] is right: the head becomes the running process, every other
    node goes to the job queue in queue order, whatever its arrival
    time (also when it has arrived at [0] already), the ready queue is
    left empty with [count = 0], and the clock is [0].  On an empty
    queue nothing runs and the ready queue is left with [count = -1]. *)
Theorem schedulers_start_with_the_head (rq pq : List) :
  counted rq → is_int (count rq) →
  sched_init rq pq
  = Ret match nodes rq with
        | [] => mkSim 0 None (mkList [] (-1)) (mk []) pq
        | p :: l => mkSim 0 (Some p) (mk []) (mk l) pq
        end.
Proof.
  intros Hc Hi. destruct (counted_is_mk rq Hc Hi) as [Hmk Hlen].
  rewrite Hmk at 1. by apply sched_init_mk.
Qed.

Lemma schedulers_start_with_the_head_witness :
  let rq := import scenario_B init_list in
  ∃ s, sched_init rq init_list = Ret s
       ∧ pid <$> currentProcess s = Some 1
       ∧ nodes (ReadyQueue s) = []
       ∧ map pid (nodes (JobQueue s)) = [2].
Proof.
  intros rq. eexists. split.
  - apply (schedulers_start_with_the_head rq init_list);
      [reflexivity|by vm_compute].
  - done.
Defined.
